(** * StreamAlert alert processor: [stream_alert/alert_processor/main.py]

    A shallow embedding of the alert processor's entry point [handler], of the
    dispatch loop [run], of the canonicalizer [_sort_dict] and of the
    configuration loader [_load_output_config], followed by the properties
    the design document states about them.

    Python values are the values [json.loads] produces.  Strings are byte
    strings in UTF-8: byte-wise lexicographic order is code point order, the
    byte [":"] occurs in no multi-byte sequence, and [len] and iteration go
    by code points. *)

From Stdlib Require Import List String Ascii ZArith Bool Arith Lia.
From Stdlib Require Import Sorted Permutation OrderedTypeEx.
Import ListNotations.

Local Open Scope string_scope.
Local Open Scope list_scope.

Set Warnings "-register-all".

(** ** Values *)

(** What [json.loads] returns: [None], [bool], [int]/[long], [float] (carried
    as its IEEE-754 bit pattern: this module does no arithmetic), [unicode],
    [list] and [dict].  A [dict] is the list of its items in iteration order;
    an [OrderedDict] is a [dict] ([isinstance(OrderedDict(), dict)] holds)
    whose iteration order is insertion order. *)
Inductive json : Type :=
| JNull
| JBool (b : bool)
| JInt (n : Z)
| JFloat (bits : Z)
| JStr (s : string)
| JArr (items : list json)
| JObj (items : list (string * json)).

Definition dict : Type := list (string * json).

Definition keys {V : Type} (d : list (string * V)) : list string := map fst d.

(** Nesting depth of dicts reached through dict values only: the recursion
    depth of [_sort_dict]. *)
Fixpoint dict_depth (v : json) : nat :=
  match v with
  | JObj d => S (list_max (map (fun kv => dict_depth (snd kv)) d))
  | _ => 0
  end.

(** A Python dict has pairwise distinct keys, at every level. *)
Fixpoint wf (v : json) : Prop :=
  match v with
  | JObj d => NoDup (map fst d) /\ fold_right (fun kv P => wf (snd kv) /\ P) True d
  | JArr l => fold_right (fun x P => wf x /\ P) True l
  | _ => True
  end.

(** ** The canonicalizer *)

(** [sorted(items, key=lambda t: t[0])]: a stable sort on the key alone. *)
Fixpoint insert_item {V : Type} (x : string * V) (l : list (string * V))
    : list (string * V) :=
  match l with
  | [] => [x]
  | y :: l' => if (fst x <=? fst y)%string then x :: y :: l' else y :: insert_item x l'
  end.

Definition sorted {V : Type} (items : list (string * V)) : list (string * V) :=
  fold_right insert_item [] items.

(** [result[key] = value] on an [OrderedDict]: a key already present keeps
    its position, a new key goes last. *)
Fixpoint setitem {V : Type} (result : list (string * V)) (key : string) (value : V)
    : list (string * V) :=
  match result with
  | [] => [(key, value)]
  | (k, v) :: rest =>
      if (k =? key)%string then (k, value) :: rest
      else (k, v) :: setitem rest key value
  end.

(** The body of the [for] loop of [_sort_dict], given the recursive call. *)
Definition sort_step (rec : dict -> dict) (result : dict) (kv : string * json) : dict :=
  let '(key, value) := kv in
  match value with
  | JObj d => setitem result key (JObj (rec d))
  | _ => setitem result key value
  end.

(** [_sort_dict] recurses on values taken from a sorted copy of the items, so
    the recursion is on the nesting depth.  CPython's recursion limit is not
    modelled: a dict nested about a thousand deep, on which the interpreter
    raises [RuntimeError], is outside the model. *)
Fixpoint sort_dict_rec (fuel : nat) (unordered_dict : dict) : dict :=
  match fuel with
  | 0 => []
  | S fuel' => fold_left (sort_step (sort_dict_rec fuel')) (sorted unordered_dict) []
  end.

Definition _sort_dict (unordered_dict : dict) : dict :=
  sort_dict_rec (dict_depth (JObj unordered_dict)) unordered_dict.

(** What [_sort_dict] stores for a value, and for an item. *)
Definition canon_value (v : json) : json :=
  match v with
  | JObj d => JObj (_sort_dict d)
  | _ => v
  end.

Definition canon_item (kv : string * json) : string * json :=
  (fst kv, canon_value (snd kv)).

(** An [OrderedDict] filled from a list of items, one [setitem] each. *)
Definition from_items (l : dict) : dict :=
  fold_left (fun result kv => setitem result (fst kv) (snd kv)) l [].

(** The order of [sorted] on keys. *)
Definition key_lt (a b : string) : Prop := (a <? b)%string = true.
Definition key_le (a b : string) : Prop := (a <=? b)%string = true.

(** ** Canonical form *)

(** Strictly increasing keys: sorted order for the distinct keys of a dict. *)
Fixpoint increasing (l : list string) : bool :=
  match l with
  | [] => true
  | a :: l' =>
      match l' with
      | [] => true
      | b :: _ => (a <? b)%string && increasing l'
      end
  end.

(** Every dict of the value has sorted keys: the dicts under dicts and the
    dicts under lists alike. *)
Fixpoint all_mappings_sorted (v : json) : bool :=
  match v with
  | JObj d => increasing (map fst d) && forallb (fun kv => all_mappings_sorted (snd kv)) d
  | JArr l => forallb all_mappings_sorted l
  | _ => true
  end.

(** Every dict reached from the value through dict values alone has sorted
    keys; what lies under a list is not looked at. *)
Fixpoint mappings_sorted (v : json) : bool :=
  match v with
  | JObj d => increasing (map fst d) && forallb (fun kv => mappings_sorted (snd kv)) d
  | _ => true
  end.

(** [d[key]] on a dict, [None] for [KeyError]. *)
Fixpoint lookup (key : string) (d : dict) : option json :=
  match d with
  | [] => None
  | (k, v) :: rest => if (k =? key)%string then Some v else lookup key rest
  end.

(** ** Paths *)

(** One step into a value: a key of a dict or a position of a list. *)
Inductive step : Type :=
| Key (k : string)
| Index (i : nat).

(** The value a path leads to, if it leads anywhere. *)
Fixpoint at_path (p : list step) (v : json) : option json :=
  match p with
  | [] => Some v
  | Key k :: p' =>
      match v with
      | JObj d =>
          match lookup k d with
          | Some x => at_path p' x
          | None => None
          end
      | _ => None
      end
  | Index i :: p' =>
      match v with
      | JArr l =>
          match nth_error l i with
          | Some x => at_path p' x
          | None => None
          end
      | _ => None
      end
  end.

(** Two looked-up values agree: both absent, or two dicts with the same
    keys, or the same value that is not a dict. *)
Definition agree (a b : option json) : Prop :=
  match a, b with
  | None, None => True
  | Some (JObj m), Some (JObj m') => Permutation (keys m) (keys m')
  | Some v, Some v' => v = v'
  | _, _ => False
  end.

Definition is_dict (v : json) : bool :=
  match v with
  | JObj _ => true
  | _ => false
  end.

(** ** The canonicalizer on a store of objects *)

(** [_sort_dict] above is a function of the value of its argument.  What it
    does to the objects themselves is stated on a store: a list or a dict is
    an object at an address, and a value that holds one holds its address. *)
Inductive pyval : Type :=
| VNull
| VBool (b : bool)
| VInt (n : Z)
| VFloat (bits : Z)
| VStr (s : string)
| VRef (address : nat).

Inductive pyobj : Type :=
| OList (items : list pyval)
| ODict (items : list (string * pyval)).

(** The objects allocated so far, the newest last. *)
Definition store : Type := list pyobj.

Fixpoint store_update (h : store) (address : nat) (o : pyobj) : store :=
  match h, address with
  | [], _ => []
  | _ :: h', 0 => o :: h'
  | x :: h', S a => x :: store_update h' a o
  end.

(** [result[key] = value] for the dict at the address [result]. *)
Definition store_setitem (h : store) (result : nat) (key : string) (value : pyval) : store :=
  match nth_error h result with
  | Some (ODict items) => store_update h result (ODict (setitem items key value))
  | _ => h
  end.

(** [isinstance(value, dict)]: the address of the dict, if it is one. *)
Definition dict_at (h : store) (value : pyval) : option nat :=
  match value with
  | VRef a =>
      match nth_error h a with
      | Some (ODict _) => Some a
      | _ => None
      end
  | _ => None
  end.

(** The body of the loop: the recursive call allocates and returns the
    address of the sorted dict with the store it left. *)
Definition sort_step_store (rec : nat -> store -> option (nat * store)) (result : nat)
    (st : option store) (kv : string * pyval) : option store :=
  match st with
  | None => None
  | Some h =>
      let '(key, value) := kv in
      match dict_at h value with
      | Some a =>
          match rec a h with
          | Some (sorted_value, h') => Some (store_setitem h' result key (VRef sorted_value))
          | None => None
          end
      | None => Some (store_setitem h result key value)
      end
  end.

(** [_sort_dict] on the dict at an address: [result = OrderedDict()] is a
    new object, filled item by item.  [None] when the fuel runs out or the
    address holds no dict. *)
Fixpoint sort_dict_store (fuel : nat) (unordered_dict : nat) (h : store)
    : option (nat * store) :=
  match fuel with
  | 0 => None
  | S fuel' =>
      match nth_error h unordered_dict with
      | Some (ODict items) =>
          let result := List.length h in
          match fold_left (sort_step_store (sort_dict_store fuel') result)
                  (sorted items) (Some (h ++ [ODict []])) with
          | Some h' => Some (result, h')
          | None => None
          end
      | _ => None
      end
  end.

Fixpoint all_some {A : Type} (l : list (option A)) : option (list A) :=
  match l with
  | [] => Some []
  | Some x :: l' => option_map (cons x) (all_some l')
  | None :: _ => None
  end.

(** The value a store value stands for: [None] when the fuel runs out (as
    it does on a cycle) or an address holds nothing. *)
Fixpoint json_of (fuel : nat) (h : store) (v : pyval) : option json :=
  match v with
  | VNull => Some JNull
  | VBool b => Some (JBool b)
  | VInt n => Some (JInt n)
  | VFloat bits => Some (JFloat bits)
  | VStr s => Some (JStr s)
  | VRef a =>
      match fuel with
      | 0 => None
      | S fuel' =>
          match nth_error h a with
          | Some (OList items) => option_map JArr (all_some (map (json_of fuel' h) items))
          | Some (ODict items) =>
              option_map JObj
                (all_some (map (fun kv => option_map (pair (fst kv)) (json_of fuel' h (snd kv)))
                             items))
          | None => None
          end
      end
  end.

(** Two items with the same key and related values. *)
Definition item_rel (Q : pyval -> json -> Prop) (kv : string * pyval) (jkv : string * json)
    : Prop :=
  fst kv = fst jkv /\ Q (snd kv) (snd jkv).

(** Two stores hold the same objects at the addresses below [B] and at
    those from [lo] up to [hi]. *)
Definition agree_on (B lo hi : nat) (hx h : store) : Prop :=
  forall b, b < B \/ (lo <= b /\ b < hi) -> nth_error hx b = nth_error h b.

(** A value stands for [j] in every store that agrees with [h] on those
    addresses. *)
Definition stands_for (n B lo hi : nat) (h : store) (v : pyval) (j : json) : Prop :=
  forall hx, agree_on B lo hi hx h -> json_of n hx v = Some j.

(** What [sort_dict_store] does with fuel [n] to a dict that stands for [d]
    by the objects below [B]: it returns a new address, leaves every object
    there was as it is, and the new object stands for [_sort_dict d] by the
    objects below [B] and the new ones. *)
Definition sort_dict_store_spec (n : nat) : Prop :=
  forall h B a d,
    B <= List.length h ->
    stands_for n B 0 0 h (VRef a) (JObj d) ->
    exists h',
      sort_dict_store n a h = Some (List.length h, h') /\
      List.length h < List.length h' /\
      (forall b, b < List.length h -> nth_error h' b = nth_error h b) /\
      stands_for n B (List.length h) (List.length h') h' (VRef (List.length h))
        (JObj (_sort_dict d)).

(** ** Python operations on decoded values *)

(** The exception classes this module can meet.  [ValueError] stands for the
    class and its subclasses; [OtherException] for any further class derived
    from [Exception]; [SystemExiting] for a [BaseException] outside
    [Exception] ([SystemExit], [KeyboardInterrupt]), which [except Exception]
    lets through. *)
Inductive exn : Type :=
| KeyError
| TypeError
| AttributeError
| ValueError
| IndexError
| IOError
| OtherException
| SystemExiting.

Definition is_Exception (e : exn) : bool :=
  match e with
  | SystemExiting => false
  | _ => true
  end.

Definition is_ValueError (e : exn) : bool :=
  match e with
  | ValueError => true
  | _ => false
  end.

Inductive result (A : Type) : Type :=
| Ok (a : A)
| Raise (e : exn).

Arguments Ok {A} a.
Arguments Raise {A} e.

(** [bool(v)]. *)
Definition py_truthy (v : json) : bool :=
  match v with
  | JNull => false
  | JBool b => b
  | JInt n => negb (n =? 0)%Z
  | JFloat bits => negb ((bits =? 0)%Z || (bits =? 2 ^ 63)%Z)
  | JStr s => match s with EmptyString => false | String _ _ => true end
  | JArr l => match l with [] => false | _ => true end
  | JObj d => match d with [] => false | _ => true end
  end.

(** [v[key]] with a string key: only a dict takes one. *)
Definition py_getitem (v : json) (key : string) : result json :=
  match v with
  | JObj d =>
      match lookup key d with
      | Some x => Ok x
      | None => Raise KeyError
      end
  | _ => Raise TypeError
  end.

(** [v.get(key, default)]: only a dict has the method. *)
Definition py_get (v : json) (key : string) (default : json) : result json :=
  match v with
  | JObj d =>
      match lookup key d with
      | Some x => Ok x
      | None => Ok default
      end
  | _ => Raise AttributeError
  end.

Definition is_substring (x s : string) : bool :=
  match index 0 x s with
  | Some _ => true
  | None => false
  end.

Definition is_str (x : string) (v : json) : bool :=
  match v with
  | JStr s => (s =? x)%string
  | _ => false
  end.

(** [x in v] for a string [x]: a key of a dict, an element of a list, a
    substring of a string. *)
Definition py_contains (x : string) (v : json) : result bool :=
  match v with
  | JObj d => Ok (existsb (fun kv => (fst kv =? x)%string) d)
  | JArr l => Ok (existsb (is_str x) l)
  | JStr s => Ok (is_substring x s)
  | _ => Raise TypeError
  end.

(** A byte [10xxxxxx] continues the code point begun before it. *)
Definition is_continuation (c : ascii) : bool :=
  ((128 <=? N_of_ascii c) && (N_of_ascii c <? 192))%N.

(** The code points of a string, each with its bytes. *)
Fixpoint code_points (s : string) : list string :=
  match s with
  | EmptyString => []
  | String c s' =>
      match s' with
      | EmptyString => [String c EmptyString]
      | String c' _ =>
          if is_continuation c'
          then match code_points s' with
               | p :: ps => String c p :: ps
               | [] => [String c EmptyString]
               end
          else String c EmptyString :: code_points s'
      end
  end.

(** The characters of a string, each a string. *)
Definition chars (s : string) : list json := map JStr (code_points s).

(** The elements [for x in v] goes through. *)
Definition py_iter (v : json) : result (list json) :=
  match v with
  | JArr l => Ok l
  | JStr s => Ok (chars s)
  | JObj d => Ok (map (fun kv => JStr (fst kv)) d)
  | _ => Raise TypeError
  end.

(** [len(v)]. *)
Definition py_len (v : json) : result nat :=
  match v with
  | JArr l => Ok (List.length l)
  | JStr s => Ok (List.length (code_points s))
  | JObj d => Ok (List.length d)
  | _ => Raise TypeError
  end.

(** [s.split(sep)] for a one-character separator. *)
Fixpoint split (sep : ascii) (s : string) : list string :=
  match s with
  | EmptyString => [EmptyString]
  | String c s' =>
      if Ascii.eqb c sep then EmptyString :: split sep s'
      else match split sep s' with
           | [] => [String c EmptyString]
           | part :: parts => String c part :: parts
           end
  end.

Definition colon : ascii := ":"%char.

Definition hashable (v : json) : bool :=
  match v with
  | JArr _ | JObj _ => false
  | _ => true
  end.

(** The strings among the elements of a list of values. *)
Definition strings_of (l : list json) : list string :=
  flat_map (fun v => match v with JStr s => [s] | _ => [] end) l.

(** ** Log records and the trace of an invocation *)

Inductive log_record : Type :=
| Info_running (records : nat)
| Error_decoding_message
| Error_malformed_sns (loaded_sns_message : json)
| Debug_message (loaded_sns_message : json)
| Error_improperly_formatted (output : string)
| Error_does_not_exist (output : string)
| Debug_sending (service descriptor : string)
| Exception_sending (service descriptor : string) (err : exn) (alert : json)
| Error_config_not_json.

(** What an invocation does to the outside, in order: the records it logs
    and the calls of [dispatch] it makes, each with what the call did. *)
Inductive event : Type :=
| Log (r : log_record)
| Dispatch (service descriptor : string) (rule_name alert : json) (outcome : result bool).

Definition is_dispatch (ev : event) : bool :=
  match ev with
  | Dispatch _ _ _ _ _ => true
  | Log _ => false
  end.

(** The dispatch attempts of a trace. *)
Definition attempts (t : list event) : list event := filter is_dispatch t.

(** The attempts made for one destination. *)
Definition attempts_for (service descriptor : string) (t : list event) : list event :=
  filter (fun ev =>
            match ev with
            | Dispatch s d _ _ _ => (s =? service)%string && (d =? descriptor)%string
            | Log _ => false
            end) t.

(** ["service:descriptor"]. *)
Definition token_of (service descriptor : string) : string :=
  (service ++ String colon descriptor)%string.

(** The status value [run] yields after an attempt that did not escape. *)
Definition status_of (ev : event) : list (bool * string) :=
  match ev with
  | Dispatch s d _ _ (Ok sent) => [(sent, token_of s d)]
  | Dispatch s d _ _ (Raise e) => if is_Exception e then [(false, token_of s d)] else []
  | Log _ => []
  end.

(** ** The processor *)

Section Processor.

(** Whatever the dispatchers act on (chat services, ticket trackers, ...). *)
Variable World : Type.

(** [json.loads] of the standard library: the value decoded, or the
    exception raised ([ValueError] for a text that is not JSON; another for
    one it gives up on, as a text nested deeper than the interpreter
    recurses). *)
Variable json_loads : string -> result json.

(** The files of the deployment package: [None] when [open] raises. *)
Variable open_file : string -> option string.

(** [output_dispatcher.dispatch(descriptor=, rule_name=, alert=)]. *)
Definition dispatcher : Type :=
  string -> json -> json -> World -> result bool * World.

(** [stream_alert.alert_processor.outputs.get_output_dispatcher], which is
    not part of this file: the dispatcher of a service, or [None]. *)
Variable get_output_dispatcher : string -> string -> string -> json -> option dispatcher.

(** The order in which [for output in set(outputs)] meets the elements. *)
Variable set_iter : list json -> list json.

(** A computation acts on the world, leaves a trace and returns or raises. *)
Definition M (A : Type) : Type := World -> result A * list event * World.

Definition ret {A : Type} (a : A) : M A := fun w => (Ok a, [], w).

Definition raise {A : Type} (e : exn) : M A := fun w => (Raise e, [], w).

Definition bind {A B : Type} (m : M A) (k : A -> M B) : M B :=
  fun w =>
    match m w with
    | (Ok a, t, w') => let '(r, t', w'') := k a w' in (r, t ++ t', w'')
    | (Raise e, t, w') => (Raise e, t, w')
    end.

Definition lift {A : Type} (r : result A) : M A := fun w => (r, [], w).

Definition logger (r : log_record) : M unit := fun w => (Ok tt, [Log r], w).

Notation "x <- m ;; k" := (bind m (fun x => k))
  (at level 61, m at next level, right associativity).
Notation "m ;;; k" := (bind m (fun _ => k))
  (at level 61, right associativity).

(** [set(v)]: the elements must be hashable. *)
Definition py_set (v : json) : result (list json) :=
  match py_iter v with
  | Ok l => if forallb hashable l then Ok (set_iter l) else Raise TypeError
  | Raise e => Raise e
  end.

(** The call of [dispatch] inside [try: ... except Exception]. *)
Definition try_dispatch (d : dispatcher) (service descriptor : string)
    (rule_name alert : json) : M bool :=
  fun w =>
    let '(outcome, w') := d descriptor rule_name alert w in
    let call := Dispatch service descriptor rule_name alert outcome in
    match outcome with
    | Ok sent => (Ok sent, [call], w')
    | Raise err =>
        if is_Exception err
        then (Ok false, [call; Log (Exception_sending service descriptor err alert)], w')
        else (Raise err, [call], w')
    end.

(** The body of [for output in set(outputs)]: [None] for [continue], a
    status value for [yield]. *)
Definition run_output (rule_name alert : json) (region function_name : string)
    (config : json) (output : json) : M (option (bool * string)) :=
  match output with
  | JStr token =>
      match split colon token with
      | [service; descriptor] =>
          known <- lift (py_contains service config) ;;
          listed <- (if known
                     then (entry <- lift (py_getitem config service) ;;
                           lift (py_contains descriptor entry))
                     else ret false) ;;
          if negb listed
          then logger (Error_does_not_exist token) ;;; ret None
          else
            match get_output_dispatcher service region function_name config with
            | None => ret None
            | Some output_dispatcher =>
                logger (Debug_sending service descriptor) ;;;
                sent <- try_dispatch output_dispatcher service descriptor rule_name alert ;;
                ret (Some (sent, token))
            end
      | _ => logger (Error_improperly_formatted token) ;;; ret None
      end
  | _ => raise AttributeError
  end.

(** What a generator has done when its consumer stops: the values yielded
    and the exception that ended it, if one did. *)
Record generated : Type := {
  yielded : list (bool * string);
  raised : option exn
}.

Definition G : Type := World -> generated * list event * World.

Fixpoint run_loop (body : json -> M (option (bool * string))) (outputs : list json) : G :=
  fun w =>
    match outputs with
    | [] => ({| yielded := []; raised := None |}, [], w)
    | output :: rest =>
        match body output w with
        | (Raise e, t, w') => ({| yielded := []; raised := Some e |}, t, w')
        | (Ok y, t, w') =>
            let '(g, t', w'') := run_loop body rest w' in
            ({| yielded := match y with Some st => st :: yielded g | None => yielded g end;
                raised := raised g |}, t ++ t', w'')
        end
    end.

(** The statements of [run] before its loop. *)
Definition run_prelude (loaded_sns_message : json) : M (json * json * list json) :=
  logger (Debug_message loaded_sns_message) ;;;
  alert <- lift (py_getitem loaded_sns_message "default") ;;
  metadata <- lift (py_getitem alert "metadata") ;;
  rule_name <- lift (py_getitem metadata "rule_name") ;;
  alert <- match alert with
           | JObj d => ret (JObj (_sort_dict d))
           | _ => raise AttributeError
           end ;;
  metadata <- lift (py_getitem alert "metadata") ;;
  outputs <- lift (py_getitem metadata "outputs") ;;
  tokens <- lift (py_set outputs) ;;
  ret (rule_name, alert, tokens).

Definition run (loaded_sns_message : json) (region function_name : string)
    (config : json) : G :=
  fun w =>
    match run_prelude loaded_sns_message w with
    | (Raise e, t, w') => ({| yielded := []; raised := Some e |}, t, w')
    | (Ok (rule_name, alert, tokens), t, w') =>
        let '(g, t', w'') :=
          run_loop (run_output rule_name alert region function_name config) tokens w' in
        (g, t ++ t', w'')
    end.

(** [_load_output_config]: [JNull] is the [None] of the bare [return]. *)
Definition _load_output_config (config_path : string) : M json :=
  match open_file config_path with
  | None => raise IOError
  | Some outputs =>
      match json_loads outputs with
      | Ok config => ret config
      | Raise err =>
          if is_ValueError err then logger Error_config_not_json ;;; ret JNull
          else raise err
      end
  end.

Definition conf_outputs : string := "conf/outputs.json".

(** [status_values.extend(run(...))]: the generator is run to its end, and
    what ends it ends the handler. *)
Definition extend (status_values : list (bool * string)) (g : G) : M (list (bool * string)) :=
  fun w =>
    let '(r, t, w') := g w in
    match raised r with
    | Some e => (Raise e, t, w')
    | None => (Ok (status_values ++ yielded r), t, w')
    end.

(** The body of [for record in records]: the status values after it. *)
Definition handle_record (config : json) (region function_name : string)
    (status_values : list (bool * string)) (record : json) : M (list (bool * string)) :=
  sns_payload <- lift (py_get record "Sns" JNull) ;;
  if negb (py_truthy sns_payload) then ret status_values
  else
    sns_message <- lift (py_getitem sns_payload "Message") ;;
    match sns_message with
    | JStr text =>
        match json_loads text with
        | Raise err =>
            if is_ValueError err then logger Error_decoding_message ;;; ret status_values
            else raise err
        | Ok loaded_sns_message =>
            has_default <- lift (py_contains "default" loaded_sns_message) ;;
            if negb has_default
            then
              has_alarm <- lift (py_contains "AlarmName" loaded_sns_message) ;;
              (if negb has_alarm
               then logger (Error_malformed_sns loaded_sns_message)
               else ret tt) ;;;
              ret status_values
            else extend status_values (run loaded_sns_message region function_name config)
        end
    | _ => raise TypeError
    end.

Fixpoint handle_records (config : json) (region function_name : string)
    (records : list json) (status_values : list (bool * string)) : M (list (bool * string)) :=
  match records with
  | [] => ret status_values
  | record :: rest =>
      status_values <- handle_record config region function_name status_values record ;;
      handle_records config region function_name rest status_values
  end.

(** The [context] argument of the handler. *)
Record lambda_context : Type := {
  invoked_function_arn : string;
  function_name : string
}.

(** [handler]: [None] is the bare [return], [Some] the list returned. *)
Definition handler (event : json) (context : lambda_context)
    : M (option (list (bool * string))) :=
  records <- lift (py_get event "Records" (JArr [])) ;;
  n <- lift (py_len records) ;;
  logger (Info_running n) ;;;
  config <- _load_output_config conf_outputs ;;
  if negb (py_truthy config) then ret None
  else
    region <- match nth_error (split colon (invoked_function_arn context)) 3 with
              | Some r => ret r
              | None => raise IndexError
              end ;;
    records <- lift (py_iter records) ;;
    status_values <- handle_records config region (function_name context) records [] ;;
    ret (Some status_values).

End Processor.


Arguments M World A : clear implicits.
Arguments G World : clear implicits.
Arguments dispatcher World : clear implicits.
Arguments ret {World A} a _.
Arguments raise {World A} e _.
Arguments bind {World A B} m k _.
Arguments lift {World A} r _.
Arguments logger {World} r _.
Arguments try_dispatch {World} d service descriptor rule_name alert _.
Arguments run_output {World} get_output_dispatcher rule_name alert region function_name config output _.
Arguments run_loop {World} body outputs _.
Arguments run_prelude {World} set_iter loaded_sns_message _.
Arguments run {World} get_output_dispatcher set_iter loaded_sns_message region function_name config _.
Arguments _load_output_config {World} json_loads open_file config_path _.
Arguments extend {World} status_values g _.
Arguments handle_record {World} json_loads get_output_dispatcher set_iter config region function_name status_values record _.
Arguments handle_records {World} json_loads get_output_dispatcher set_iter config region function_name records status_values _.
Arguments handler {World} json_loads open_file get_output_dispatcher set_iter event context _.

(** ** Notions the properties are stated with *)

(** The destination each attempt of a trace was made for. *)
Definition attempt_tokens (t : list event) : list string :=
  flat_map (fun ev =>
              match ev with
              | Dispatch s d _ _ _ => [token_of s d]
              | Log _ => []
              end) t.



(** A token gets as far as the call of [dispatch]: it splits in two, the
    configuration lists it and the registry has a dispatcher for it. *)
Definition reaches_dispatch {World : Type}
    (get_output_dispatcher : string -> string -> string -> json -> option (dispatcher World))
    (region function_name : string) (config : json)
    (token service descriptor : string) (d : dispatcher World) : Prop :=
  split colon token = [service; descriptor] /\
  py_contains service config = Ok true /\
  (exists entry, py_getitem config service = Ok entry /\
                 py_contains descriptor entry = Ok true) /\
  get_output_dispatcher service region function_name config = Some d.


(** ** A deployment for the examples *)

(** One order [set] may iterate in: each string once, at its first
    occurrence; other elements as they come. *)
Fixpoint first_seen (seen : list string) (l : list json) : list json :=
  match l with
  | [] => []
  | JStr s :: l' =>
      if existsb (String.eqb s) seen then first_seen seen l'
      else JStr s :: first_seen (s :: seen) l'
  | v :: l' => v :: first_seen seen l'
  end.

Definition in_order (l : list json) : list json := first_seen [] l.

(** The outside of the examples: the messages delivered so far. *)
Definition deliveries : Type := list (string * string).

(** A dispatcher that delivers, one that fails and one that ends the
    process. *)
Definition delivering (service : string) : dispatcher deliveries :=
  fun descriptor _ _ w => (Ok true, w ++ [(service, descriptor)]).

Definition failing : dispatcher deliveries :=
  fun _ _ _ w => (Raise OtherException, w).



Definition sample_registry (service region function_name : string) (config : json)
    : option (dispatcher deliveries) :=
  if (service =? "slack")%string then Some (delivering service)
  else if (service =? "pagerduty")%string then Some failing
  else if (service =? "phantom")%string then None
  else Some (delivering service).

Definition sample_config : json :=
  JObj [("slack", JObj [("ok", JStr "hook")]);
        ("pagerduty", JObj [("oncall", JStr "key")])].

Definition sample_alert (outputs : list json) : json :=
  JObj [("record", JObj [("b", JInt 1); ("a", JInt 2)]);
        ("metadata", JObj [("rule_name", JStr "r1"); ("outputs", JArr outputs)])].

Definition sample_message (outputs : list json) : json :=
  JObj [("default", sample_alert outputs)].

Definition sample_context : lambda_context :=
  {| invoked_function_arn := "arn:aws:lambda:us-east-1:123456789012:function:alerts";
     function_name := "alerts" |}.

(** A stand-in for [json.loads] on the texts of the examples (the texts are
    names: the real ones are full of quotes). *)
Definition sample_loads (text : string) : result json :=
  if (text =? "outputs")%string then Ok sample_config
  else if (text =? "empty")%string then Ok (JObj [])
  else if (text =? "unroutable")%string
       then Ok (JObj [("default", JObj [("record", JObj [])])])
  else if (text =? "alert")%string
       then Ok (sample_message [JStr "slack:ok"; JStr "bogus"; JStr "slack:ok"])
  else if (text =? "page")%string
       then Ok (sample_message [JStr "pagerduty:oncall"])
  else Raise ValueError.

Definition files_with (content : string) (path : string) : option string :=
  if (path =? conf_outputs)%string then Some content else None.

Definition no_files (path : string) : option string := None.

Definition sns_record (text : string) : json :=
  JObj [("Sns", JObj [("Message", JStr text)])].

Definition record_without_message : json :=
  JObj [("Sns", JObj [("Type", JStr "Notification")])].

Definition record_without_sns : json :=
  JObj [("EventSource", JStr "aws:s3")].

Definition batch (records : list json) : json :=
  JObj [("Records", JArr records)].

(** A dict with a list that holds a dict whose keys are out of order. *)
Definition dict_under_list : dict :=
  [("z", JInt 0); ("a", JArr [JObj [("b", JInt 1); ("a", JInt 2)]])].

(** A store for the examples: the dict [{"b": [..], "a": {"d": 1, "c": 2}}]
    at address 2. *)
Definition sample_store : store :=
  [OList [VInt 3; VInt 1];
   ODict [("d", VInt 1); ("c", VInt 2)];
   ODict [("b", VRef 0); ("a", VRef 1)]].

(** ** Further notions *)

(** [v'] is [v] with the items of its dicts, at every level reached through
    dict values, in another order. *)
Inductive reordered : json -> json -> Prop :=
| reordered_same v : is_dict v = false -> reordered v v
| reordered_dict d l d' :
    Permutation d l ->
    Forall2 (fun kv kv' => fst kv = fst kv' /\ reordered (snd kv) (snd kv')) l d' ->
    reordered (JObj d) (JObj d').

(** A dict written in another order, at two levels. *)
Definition sample_alert_reordered (outputs : list json) : json :=
  JObj [("metadata", JObj [("outputs", JArr outputs); ("rule_name", JStr "r1")]);
        ("record", JObj [("a", JInt 2); ("b", JInt 1)])].

(** What [sort_dict_store] may have stored under a key, for a dict with the
    items [items] in the store [h]: the value of an item that is no dict, as
    it is (for a list: its address, not a copy), or the address of a dict
    allocated since, for an item that is a dict. *)
Definition stored_by_sort (h : store) (items : list (string * pyval))
    (k : string) (v : pyval) : Prop :=
  (In (k, v) items /\ dict_at h v = None) \/
  (exists a r', In (k, VRef a) items /\ dict_at h (VRef a) = Some a /\
                v = VRef r' /\ List.length h < r').

(** The step of the store loop returns new addresses only and leaves the
    objects there were as they are. *)
Definition allocates_only (rec : nat -> store -> option (nat * store)) : Prop :=
  forall a h r h',
    rec a h = Some (r, h') ->
    r = List.length h /\ List.length h < List.length h' /\
    (forall b, b < List.length h -> nth_error h' b = nth_error h b).

(** The configuration lists the destination and the registry has a
    dispatcher for its service. *)
Definition configured {World : Type}
    (get_output_dispatcher : string -> string -> string -> json -> option (dispatcher World))
    (region function_name : string) (config : json)
    (service descriptor : string) : Prop :=
  py_contains service config = Ok true /\
  (exists entry, py_getitem config service = Ok entry /\
                 py_contains descriptor entry = Ok true) /\
  exists d, get_output_dispatcher service region function_name config = Some d.

(** What the statements of [run] before its loop computed from the message:
    the rule name read from the alert as it came, the alert sorted, and the
    tokens of its [outputs]. *)
Definition prelude_of (set_iter : list json -> list json) (msg : json)
    (rule_name alert : json) (tokens : list json) : Prop :=
  exists d0 m0 m outputs l,
    py_getitem msg "default" = Ok (JObj d0) /\
    py_getitem (JObj d0) "metadata" = Ok m0 /\
    py_getitem m0 "rule_name" = Ok rule_name /\
    alert = JObj (_sort_dict d0) /\
    py_getitem alert "metadata" = Ok m /\
    py_getitem m "outputs" = Ok outputs /\
    py_iter outputs = Ok l /\
    tokens = set_iter l.

(** ** Well-formed input *)

Definition is_string (v : json) : bool :=
  match v with
  | JStr _ => true
  | _ => false
  end.

(** A value [x in v] can be asked of. *)
Definition searchable (v : json) : bool :=
  match v with
  | JObj _ | JArr _ | JStr _ => true
  | _ => false
  end.

(** A configuration of the documented shape: a dict from service names to
    containers of descriptors. *)
Definition usable_config (config : json) : bool :=
  match config with
  | JObj c => forallb (fun kv => searchable (snd kv)) c
  | _ => false
  end.

(** An alert of the documented shape: a dict whose [metadata] is a dict with
    a [rule_name] and a list of strings as [outputs]. *)
Definition routable_alert (alert : json) : Prop :=
  wf alert /\
  exists d m rule_name outputs,
    alert = JObj d /\
    lookup "metadata" d = Some (JObj m) /\
    lookup "rule_name" m = Some rule_name /\
    lookup "outputs" m = Some (JArr outputs) /\
    forallb is_string outputs = true.

(** A message that is a dict, with a routable alert under [default] if it
    has the key. *)
Definition well_formed_message (msg : json) : Prop :=
  exists items,
    msg = JObj items /\
    match lookup "default" items with
    | Some alert => routable_alert alert
    | None => True
    end.

(** A record that is a dict, whose [Sns] field, if it has one that is not
    empty, is a dict with a string [Message] that is not JSON or decodes to
    a well-formed message. *)
Definition well_formed_record (json_loads : string -> result json) (record : json) : Prop :=
  exists r,
    record = JObj r /\
    match lookup "Sns" r with
    | None => True
    | Some sns =>
        py_truthy sns = false \/
        exists s text,
          sns = JObj s /\ lookup "Message" s = Some (JStr text) /\
          match json_loads text with
          | Ok msg => well_formed_message msg
          | Raise _ => True
          end
    end.

(** [json.loads] raises nothing but [ValueError]. *)
Definition raises_value_errors_only (json_loads : string -> result json) : Prop :=
  forall text e, json_loads text = Raise e -> is_ValueError e = true.

(** The dispatchers of the registry raise nothing but [Exception]s. *)
Definition raises_exceptions_only {World : Type}
    (get_output_dispatcher : string -> string -> string -> json -> option (dispatcher World))
    : Prop :=
  forall service region function_name config d,
    get_output_dispatcher service region function_name config = Some d ->
    forall descriptor rule_name alert w e w',
      d descriptor rule_name alert w = (Raise e, w') -> is_Exception e = true.

(** ** More of the deployment for the examples *)

(** [sample_loads] with an alarm notification and a message that is neither
    an alert nor an alarm. *)
Definition sample_loads_more (text : string) : result json :=
  if (text =? "alarm")%string then Ok (JObj [("AlarmName", JStr "errors-high")])
  else if (text =? "stray")%string then Ok (JObj [("Subject", JStr "hello")])
  else if (text =? "deep")%string then Raise OtherException
  else sample_loads text.

Definition short_context : lambda_context :=
  {| invoked_function_arn := "arn:aws:lambda"; function_name := "alerts" |}.

(** ** Notions for the loop over the tokens and for the items stored *)


(** * Properties *)

(** ** The order on keys *)

Lemma key_lt_iff a b : key_lt a b <-> String_as_OT.lt a b.
Proof.
  unfold key_lt, String.ltb. rewrite <- String_as_OT.cmp_lt.
  unfold String_as_OT.cmp. destruct (a ?= b)%string; split; congruence.
Qed.

Lemma key_lt_trans a b c : key_lt a b -> key_lt b c -> key_lt a c.
Proof. rewrite !key_lt_iff. apply String_as_OT.lt_trans. Qed.

Lemma key_lt_irrefl a : ~ key_lt a a.
Proof.
  rewrite key_lt_iff. intro H. apply String_as_OT.lt_not_eq in H.
  apply H. reflexivity.
Qed.

Lemma key_le_iff a b : key_le a b <-> key_lt a b \/ a = b.
Proof.
  unfold key_le, key_lt, String.leb, String.ltb.
  destruct (a ?= b)%string eqn:E.
  - apply String.compare_eq_iff in E. intuition.
  - intuition.
  - split; [discriminate|]. intros [H | ->]; [discriminate|].
    assert (E' : String_as_OT.cmp b b = Eq) by now apply String_as_OT.cmp_eq.
    unfold String_as_OT.cmp in E'. congruence.
Qed.

Lemma key_le_refl a : key_le a a.
Proof. apply key_le_iff. now right. Qed.

Lemma key_le_trans a b c : key_le a b -> key_le b c -> key_le a c.
Proof.
  rewrite !key_le_iff. intros [H1 | ->] [H2 | ->]; auto.
  left. eapply key_lt_trans; eauto.
Qed.

Lemma not_key_le a b : (a <=? b)%string = false -> key_lt b a.
Proof.
  unfold key_lt, String.leb, String.ltb. rewrite (String.compare_antisym b a).
  destruct (a ?= b)%string; simpl; congruence.
Qed.

Lemma key_lt_le a b : key_lt a b -> key_le a b.
Proof. intro. apply key_le_iff. now left. Qed.

Lemma increasing_iff l : increasing l = true <-> StronglySorted key_lt l.
Proof.
  split.
  - intro H. apply Sorted_StronglySorted; [exact key_lt_trans|].
    induction l as [|a [|b l] IH]; simpl in *; auto.
    apply andb_true_iff in H as [H1 H2]. constructor; auto.
  - intro H. apply StronglySorted_Sorted in H.
    induction H as [|a l H IH Hd]; [reflexivity|].
    destruct l as [|b l]; [reflexivity|].
    inversion Hd; subst. simpl. apply andb_true_iff. split; auto.
Qed.

(** ** [sorted] *)

Lemma insert_item_perm {V : Type} (x : string * V) l :
  Permutation (insert_item x l) (x :: l).
Proof.
  induction l as [|y l IH]; simpl; [reflexivity|].
  destruct (fst x <=? fst y)%string; [reflexivity|].
  rewrite IH. apply perm_swap.
Qed.

Lemma sorted_perm {V : Type} (l : list (string * V)) : Permutation (sorted l) l.
Proof.
  induction l as [|x l IH]; simpl; [reflexivity|].
  rewrite insert_item_perm. now constructor.
Qed.

Lemma in_sorted {V : Type} (kv : string * V) l : In kv (sorted l) <-> In kv l.
Proof.
  split; apply Permutation_in; [|symmetry]; apply sorted_perm.
Qed.

Lemma insert_item_sorted {V : Type} (x : string * V) l :
  StronglySorted key_le (keys l) -> StronglySorted key_le (keys (insert_item x l)).
Proof.
  induction l as [|y l IH]; simpl; intro H.
  - repeat constructor.
  - destruct (fst x <=? fst y)%string eqn:E; simpl.
    + constructor; [exact H|]. inversion H; subst. constructor; [exact E|].
      eapply Forall_impl; [|eassumption]. intros a Ha. eapply key_le_trans; eauto.
    + inversion H; subst. constructor; [auto|].
      apply not_key_le, key_lt_le in E.
      change (Forall (key_le (fst y)) (keys (insert_item x l))).
      eapply Permutation_Forall.
      * symmetry. unfold keys. apply Permutation_map, insert_item_perm.
      * simpl. constructor; assumption.
Qed.

Lemma sorted_sorted {V : Type} (l : list (string * V)) :
  StronglySorted key_le (keys (sorted l)).
Proof.
  induction l as [|x l IH]; simpl; [constructor|]. now apply insert_item_sorted.
Qed.

Lemma sorted_id {V : Type} (l : list (string * V)) :
  StronglySorted key_le (keys l) -> sorted l = l.
Proof.
  induction l as [|x l IH]; simpl; intro H; [reflexivity|].
  inversion H; subst. rewrite IH by assumption.
  destruct l as [|y l]; [reflexivity|]. simpl.
  inversion H3; subst. unfold key_le in H4. now rewrite H4.
Qed.

Lemma increasing_key_le l : increasing l = true -> StronglySorted key_le l.
Proof.
  rewrite increasing_iff. induction 1; constructor; auto.
  eapply Forall_impl; [|eassumption]. intros. now apply key_lt_le.
Qed.

Lemma increasing_NoDup l : increasing l = true -> NoDup l.
Proof.
  rewrite increasing_iff. induction 1 as [|a l H IH Hall]; constructor; auto.
  intro Hin. rewrite Forall_forall in Hall. exact (key_lt_irrefl a (Hall a Hin)).
Qed.

(** ** Recursion on the nesting depth *)

Lemma dict_depth_in k v d : In (k, v) d -> dict_depth v < dict_depth (JObj d).
Proof.
  intro H. simpl. apply Nat.lt_succ_r.
  assert (Hmax := proj1 (list_max_le (map (fun kv => dict_depth (snd kv)) d) _) (Nat.le_refl _)).
  rewrite Forall_forall in Hmax. apply Hmax.
  apply in_map_iff. exists (k, v). auto.
Qed.

Lemma fold_left_ext_in {A B : Type} (f g : A -> B -> A) (l : list B) :
  (forall x, In x l -> forall a, f a x = g a x) ->
  forall a, fold_left f l a = fold_left g l a.
Proof.
  induction l as [|x l IH]; simpl; intros H a; [reflexivity|].
  rewrite (H x) by auto. apply IH. intros; apply H; auto.
Qed.

Lemma sort_step_ext (f g : dict -> dict) (l : dict) :
  (forall k d, In (k, JObj d) l -> f d = g d) ->
  forall acc, fold_left (sort_step f) l acc = fold_left (sort_step g) l acc.
Proof.
  intro H. apply fold_left_ext_in. intros [k v] Hin acc.
  destruct v; simpl; try reflexivity. now rewrite (H k items).
Qed.

Lemma sort_dict_rec_fuel n : forall m d,
  dict_depth (JObj d) <= n -> dict_depth (JObj d) <= m ->
  sort_dict_rec n d = sort_dict_rec m d.
Proof.
  induction n as [|n IH]; intros m d Hn Hm; [simpl in Hn; lia|].
  destruct m as [|m]; [simpl in Hm; lia|].
  simpl. apply sort_step_ext. intros k d' Hin.
  apply (proj1 (in_sorted _ _)), dict_depth_in in Hin. apply IH; lia.
Qed.

(** The equation of [_sort_dict], as the source reads. *)
Lemma _sort_dict_eq d :
  _sort_dict d = fold_left (sort_step _sort_dict) (sorted d) [].
Proof.
  unfold _sort_dict at 1.
  change (dict_depth (JObj d)) with (S (list_max (map (fun kv => dict_depth (snd kv)) d))).
  simpl. apply sort_step_ext. intros k d' Hin.
  apply (proj1 (in_sorted _ _)), dict_depth_in in Hin. simpl in Hin.
  unfold _sort_dict. apply sort_dict_rec_fuel; simpl; lia.
Qed.

Lemma dict_depth_ind (P : dict -> Prop) :
  (forall d, (forall k d', In (k, JObj d') d -> P d') -> P d) ->
  forall d, P d.
Proof.
  intros H d. remember (dict_depth (JObj d)) as n eqn:E.
  assert (Hn : dict_depth (JObj d) <= n) by lia. clear E. revert d Hn.
  induction n as [|n IH]; intros d Hn; [simpl in Hn; lia|].
  apply H. intros k d' Hin. apply IH. apply dict_depth_in in Hin. lia.
Qed.

(** ** [setitem] and the loop of [_sort_dict] *)

Lemma setitem_new {V : Type} (acc : list (string * V)) k v :
  ~ In k (keys acc) -> setitem acc k v = acc ++ [(k, v)].
Proof.
  induction acc as [|[k' v'] acc IH]; simpl; intro H; [reflexivity|].
  destruct (String.eqb_spec k' k) as [->|Hne]; [tauto|].
  rewrite IH; tauto.
Qed.

Lemma setitem_keys_old {V : Type} (acc : list (string * V)) k v :
  In k (keys acc) -> keys (setitem acc k v) = keys acc.
Proof.
  induction acc as [|[k' v'] acc IH]; simpl; intro H; [tauto|].
  destruct (String.eqb_spec k' k) as [->|Hne]; [reflexivity|].
  simpl. f_equal. apply IH. destruct H; congruence.
Qed.

Lemma setitem_in {V : Type} (acc : list (string * V)) k v x :
  In x (setitem acc k v) -> In x acc \/ x = (k, v).
Proof.
  induction acc as [|[k' v'] acc IH]; simpl.
  - intuition.
  - destruct (String.eqb_spec k' k) as [->|Hne]; simpl; intuition.
Qed.

Lemma sort_step_canon acc kv :
  sort_step _sort_dict acc kv = setitem acc (fst kv) (canon_value (snd kv)).
Proof. destruct kv as [k v]. destruct v; reflexivity. Qed.

Lemma fold_setitem_map (f : string * json -> string * json) l : forall acc,
  fold_left (fun result kv => setitem result (fst kv) (snd kv)) (map f l) acc =
  fold_left (fun result kv => setitem result (fst (f kv)) (snd (f kv))) l acc.
Proof. induction l as [|x l IH]; simpl; intros; [reflexivity|apply IH]. Qed.

Lemma _sort_dict_from_items d :
  _sort_dict d = from_items (map canon_item (sorted d)).
Proof.
  rewrite _sort_dict_eq. unfold from_items. rewrite fold_setitem_map.
  apply fold_left_ext_in. intros kv _ acc. apply sort_step_canon.
Qed.

Lemma keys_canon l : keys (map canon_item l) = keys l.
Proof. unfold keys. rewrite map_map. reflexivity. Qed.

Lemma StronglySorted_snoc (l : list string) k :
  StronglySorted key_lt l -> Forall (fun a => key_lt a k) l ->
  StronglySorted key_lt (l ++ [k]).
Proof.
  induction 1 as [|a l H IH Hall]; simpl; intro Hk.
  - repeat constructor.
  - inversion Hk; subst. constructor; [auto|].
    apply Forall_app. split; [assumption|]. repeat constructor. assumption.
Qed.

Lemma fold_setitem_increasing (l : dict) : forall acc : dict,
  StronglySorted key_lt (keys acc) ->
  StronglySorted key_le (keys l) ->
  (forall a b, In a (keys acc) -> In b (keys l) -> key_le a b) ->
  StronglySorted key_lt
    (keys (fold_left (fun result kv => setitem result (fst kv) (snd kv)) l acc)).
Proof.
  induction l as [|[k v] l IH]; simpl; intros acc Hacc Hl Hle; [assumption|].
  inversion Hl; subst. rewrite Forall_forall in H2.
  destruct (in_dec string_dec k (keys acc)) as [Hin | Hnin].
  - apply IH; auto.
    + now rewrite setitem_keys_old.
    + rewrite setitem_keys_old by assumption. intros; apply Hle; auto.
  - rewrite setitem_new by assumption.
    apply IH; auto.
    + unfold keys. rewrite map_app. simpl. apply StronglySorted_snoc; [assumption|].
      apply Forall_forall. intros a Ha.
      destruct (proj1 (key_le_iff a k) (Hle a k Ha (or_introl eq_refl))) as [Hlt | ->];
        [assumption | contradiction].
    + unfold keys. rewrite map_app. simpl. intros a b Ha Hb.
      apply in_app_or in Ha as [Ha | [<- | []]].
      * apply Hle; auto.
      * apply H2. exact Hb.
Qed.

Lemma from_items_increasing l :
  StronglySorted key_le (keys l) -> increasing (keys (from_items l)) = true.
Proof.
  intro H. apply increasing_iff. apply fold_setitem_increasing; simpl; auto.
  - constructor.
  - intros a b [].
Qed.

Lemma fold_setitem_in (l : dict) : forall (acc : dict) x,
  In x (fold_left (fun result kv => setitem result (fst kv) (snd kv)) l acc) ->
  In x acc \/ In x l.
Proof.
  induction l as [|[k v] l IH]; simpl; intros acc x H; [auto|].
  apply IH in H as [H | H]; [|auto].
  apply setitem_in in H as [H | ->]; auto.
Qed.

Lemma from_items_in l x : In x (from_items l) -> In x l.
Proof. intro H. apply fold_setitem_in in H as [[] | H]. exact H. Qed.

Lemma fold_setitem_NoDup (l : dict) : forall acc : dict,
  NoDup (keys acc ++ keys l) ->
  fold_left (fun result kv => setitem result (fst kv) (snd kv)) l acc = acc ++ l.
Proof.
  induction l as [|[k v] l IH]; simpl; intros acc H.
  - now rewrite app_nil_r.
  - rewrite setitem_new.
    + rewrite IH.
      * now rewrite <- app_assoc.
      * unfold keys in *. rewrite map_app, <- app_assoc. exact H.
    + apply NoDup_remove_2 in H. intro Hin. apply H. apply in_or_app. now left.
Qed.

Lemma from_items_NoDup l : NoDup (keys l) -> from_items l = l.
Proof. intro H. unfold from_items. now rewrite fold_setitem_NoDup. Qed.

(** With distinct keys each [setitem] appends: the result is the sorted
    items, each value canonicalized. *)
Lemma _sort_dict_NoDup d :
  NoDup (keys d) -> _sort_dict d = map canon_item (sorted d).
Proof.
  intro H. rewrite _sort_dict_from_items. apply from_items_NoDup.
  rewrite keys_canon. eapply Permutation_NoDup; [|exact H].
  symmetry. unfold keys. apply Permutation_map, sorted_perm.
Qed.

(** ** The canonicalizer *)

Lemma in_sort_dict x d :
  In x (_sort_dict d) -> exists kv, In kv d /\ x = canon_item kv.
Proof.
  rewrite _sort_dict_from_items. intro H. apply from_items_in in H.
  apply in_map_iff in H as [kv [<- Hin]]. exists kv. split; [|reflexivity].
  now apply in_sorted.
Qed.

Lemma _sort_dict_increasing d : increasing (keys (_sort_dict d)) = true.
Proof.
  rewrite _sort_dict_from_items. apply from_items_increasing.
  rewrite keys_canon. apply sorted_sorted.
Qed.

Lemma _sort_dict_mappings_sorted : forall d, mappings_sorted (JObj (_sort_dict d)) = true.
Proof.
  apply (dict_depth_ind (fun d => mappings_sorted (JObj (_sort_dict d)) = true)).
  intros d IH. simpl. apply andb_true_iff. split.
  - apply _sort_dict_increasing.
  - apply forallb_forall. intros x Hx.
    apply in_sort_dict in Hx as [[k v] [Hin ->]]. simpl.
    destruct v; simpl; try reflexivity.
    exact (IH k items Hin).
Qed.

(** A dict in canonical form is left as it is. *)
Lemma _sort_dict_fixed : forall d, mappings_sorted (JObj d) = true -> _sort_dict d = d.
Proof.
  apply (dict_depth_ind (fun d => mappings_sorted (JObj d) = true -> _sort_dict d = d)).
  intros d IH H. simpl in H. apply andb_true_iff in H as [Hk Hv].
  rewrite _sort_dict_NoDup by now apply increasing_NoDup.
  rewrite sorted_id by now apply increasing_key_le.
  rewrite <- (map_id d) at 2. apply map_ext_in. intros [k v] Hin.
  unfold canon_item. simpl. f_equal.
  rewrite forallb_forall in Hv. specialize (Hv _ Hin). simpl in Hv.
  destruct v; simpl; try reflexivity.
  f_equal. exact (IH k items Hin Hv).
Qed.

Lemma lookup_in k v d : lookup k d = Some v -> In (k, v) d.
Proof.
  induction d as [|[k' v'] d IH]; simpl; [discriminate|].
  destruct (String.eqb_spec k' k) as [->|Hne].
  - intros [= ->]. now left.
  - intro H. right. auto.
Qed.

Lemma in_lookup k v d : NoDup (keys d) -> In (k, v) d -> lookup k d = Some v.
Proof.
  induction d as [|[k' v'] d IH]; simpl; intros Hnd Hin; [tauto|].
  inversion Hnd; subst.
  destruct Hin as [[= -> ->] | Hin].
  - now rewrite String.eqb_refl.
  - destruct (String.eqb_spec k' k) as [->|Hne]; [|auto].
    exfalso. apply H1. change k with (fst (k, v)). now apply in_map.
Qed.

Lemma lookup_none k d : lookup k d = None <-> ~ In k (keys d).
Proof.
  induction d as [|[k' v'] d IH]; simpl; [tauto|].
  destruct (String.eqb_spec k' k) as [->|Hne].
  - split; [discriminate | tauto].
  - rewrite IH. tauto.
Qed.

Lemma lookup_perm k d d' :
  NoDup (keys d) -> Permutation d d' -> lookup k d' = lookup k d.
Proof.
  intros Hnd Hp.
  assert (Hnd' : NoDup (keys d')).
  { eapply Permutation_NoDup; [|exact Hnd]. unfold keys. now apply Permutation_map. }
  destruct (lookup k d) as [v|] eqn:E.
  - apply in_lookup; [assumption|]. eapply Permutation_in; [exact Hp|].
    now apply lookup_in.
  - apply lookup_none. apply lookup_none in E. intro Hin. apply E.
    eapply Permutation_in; [|exact Hin]. symmetry. unfold keys. now apply Permutation_map.
Qed.

Lemma lookup_canon k l :
  lookup k (map canon_item l) = option_map canon_value (lookup k l).
Proof.
  induction l as [|[k' v'] l IH]; simpl; [reflexivity|].
  destruct (k' =? k)%string; [reflexivity | exact IH].
Qed.

(** [_sort_dict(d)[k]] is [d[k]], canonicalized when it is a dict. *)
Lemma lookup_sort_dict k d :
  NoDup (keys d) -> lookup k (_sort_dict d) = option_map canon_value (lookup k d).
Proof.
  intro H. rewrite _sort_dict_NoDup by assumption. rewrite lookup_canon.
  f_equal. apply lookup_perm; [assumption|]. symmetry. apply sorted_perm.
Qed.

Lemma keys_sort_dict d : NoDup (keys d) -> Permutation (keys d) (keys (_sort_dict d)).
Proof.
  intro H. rewrite _sort_dict_NoDup by assumption. rewrite keys_canon.
  symmetry. unfold keys. apply Permutation_map, sorted_perm.
Qed.

Lemma wf_in k v d : wf (JObj d) -> In (k, v) d -> wf v.
Proof.
  simpl. intros [_ H]. induction d as [|x d IH]; simpl in *; [tauto|].
  destruct H as [Hx Hd]. intros [-> | Hin]; auto.
Qed.

Lemma agree_refl o : agree o o.
Proof. destruct o as [[]|]; simpl; auto. Qed.

Lemma at_path_sort_dict p : forall d,
  wf (JObj d) -> agree (at_path p (JObj d)) (at_path p (JObj (_sort_dict d))).
Proof.
  induction p as [|s p IH]; intros d Hwf.
  - simpl. apply keys_sort_dict. apply Hwf.
  - destruct s as [k | i]; [|exact I].
    simpl. rewrite lookup_sort_dict by apply Hwf.
    destruct (lookup k d) as [v|] eqn:E; simpl; [|exact I].
    destruct v; simpl; try apply agree_refl.
    apply (IH items). eapply wf_in; [exact Hwf|]. eapply lookup_in; eauto.
Qed.

(** ** [split] *)

Lemma split_nonempty sep s : split sep s <> [].
Proof.
  induction s as [|c s IH]; simpl; [discriminate|].
  destruct (Ascii.eqb c sep); [discriminate|].
  destruct (split sep s); [contradiction | discriminate].
Qed.

(** Joining the parts with the separator gives the string back. *)
Lemma split_join sep s :
  String.concat (String sep EmptyString) (split sep s) = s.
Proof.
  induction s as [|c s IH]; simpl; [reflexivity|].
  destruct (Ascii.eqb_spec c sep) as [->|Hne].
  - destruct (split sep s) as [|p ps] eqn:E; [now apply split_nonempty in E|].
    simpl in *. now rewrite IH.
  - destruct (split sep s) as [|p ps] eqn:E; [now apply split_nonempty in E|].
    simpl in *. destruct ps; simpl in *; now rewrite <- IH.
Qed.

Lemma split_two token service descriptor :
  split colon token = [service; descriptor] -> token = token_of service descriptor.
Proof.
  intro H. rewrite <- (split_join colon token), H. reflexivity.
Qed.

(** ** The dispatch loop *)

Lemma attempts_app t t' : attempts (t ++ t') = attempts t ++ attempts t'.
Proof. apply filter_app. Qed.

Lemma attempt_tokens_app t t' : attempt_tokens (t ++ t') = attempt_tokens t ++ attempt_tokens t'.
Proof. apply flat_map_app. Qed.

Ltac monad_simpl :=
  unfold bind, lift, logger, ret, raise, try_dispatch in *; simpl in *.

(** Case analysis on a scrutinee that holds no further case analysis. *)
Ltac break_inner :=
  match goal with
  | |- context [match ?x with _ => _ end] =>
      lazymatch x with
      | context [match _ with _ => _ end] => fail
      | _ => let E := fresh "E" in destruct x eqn:E
      end
  end.

Section ProcessorProperties.

Context {World : Type}.
Variable json_loads : string -> result json.
Variable open_file : string -> option string.
Variable get_output_dispatcher :
  string -> string -> string -> json -> option (dispatcher World).
Variable set_iter : list json -> list json.

(** What one token leaves behind: at most one attempt, which is for that
    token and gives the status value yielded, if it gives one. *)
Lemma run_output_attempt rule_name alert region function_name config output w :
  match run_output get_output_dispatcher rule_name alert region function_name config output w with
  | (r, t, _) =>
      flat_map status_of (attempts t) =
        match r with
        | Ok (Some st) => [st]
        | _ => []
        end /\
      (attempt_tokens t = [] \/
       exists token, output = JStr token /\ attempt_tokens t = [token])
  end.
Proof.
  unfold run_output.
  destruct output as [| | | |token| |]; try (simpl; auto).
  destruct (split colon token) as [|service [|descriptor [|x l]]] eqn:Hsplit;
    try (simpl; auto).
  apply split_two in Hsplit.
  monad_simpl.
  destruct (py_contains service config) as [[|]|]; simpl; auto.
  destruct (py_getitem config service) as [entry|]; simpl; auto.
  destruct (py_contains descriptor entry) as [[|]|]; simpl; auto.
  destruct (get_output_dispatcher service region function_name config) as [d|];
    simpl; auto.
  destruct (d descriptor rule_name alert w) as [[sent | e] w1]; simpl.
  - rewrite <- Hsplit. split; [reflexivity|]. right. eauto.
  - destruct (is_Exception e) eqn:He; simpl; rewrite He, <- Hsplit.
    + split; [reflexivity|]. right. eauto.
    + split; [reflexivity|]. right. eauto.
Qed.

Lemma run_loop_status body :
  (forall output w,
      match body output w with
      | (r, t, _) =>
          flat_map status_of (attempts t) =
            match r with
            | Ok (Some st) => [st]
            | _ => []
            end
      end) ->
  forall outputs w,
    match @run_loop World body outputs w with
    | (g, t, _) => yielded g = flat_map status_of (attempts t)
    end.
Proof.
  intros Hbody outputs. induction outputs as [|output rest IH]; intro w; simpl.
  - reflexivity.
  - specialize (Hbody output w).
    destruct (body output w) as [[[y | e] t] w1].
    + specialize (IH w1). destruct (run_loop body rest w1) as [[g t'] w2].
      simpl. rewrite attempts_app, flat_map_app, Hbody, <- IH.
      destruct y; reflexivity.
    + simpl. now rewrite Hbody.
Qed.

Lemma run_prelude_attempts msg (w : World) :
  match run_prelude set_iter msg w with
  | (_, t, w') => attempts t = [] /\ attempt_tokens t = [] /\ w' = w
  end.
Proof.
  unfold run_prelude. monad_simpl.
  repeat (break_inner; simpl; auto).
Qed.

Lemma run_status msg region function_name config (w : World) :
  match run get_output_dispatcher set_iter msg region function_name config w with
  | (g, t, _) => yielded g = flat_map status_of (attempts t)
  end.
Proof.
  unfold run. pose proof (run_prelude_attempts msg w) as Hp.
  destruct (run_prelude set_iter msg w) as [[[[[rule_name alert] tokens] | e] t] w1].
  - destruct Hp as [Hp _].
    pose proof (run_loop_status
                  (run_output get_output_dispatcher rule_name alert region function_name config)) as Hl.
    match type of Hl with ?P -> _ => assert (Hb : P) end.
    { intros output w0.
      pose proof (run_output_attempt rule_name alert region function_name config output w0) as H.
      destruct (run_output _ _ _ _ _ _ _ _) as [[r t0] w2]. apply H. }
    specialize (Hl Hb tokens w1).
    destruct (run_loop _ tokens w1) as [[g t'] w2].
    now rewrite attempts_app, Hp.
  - destruct Hp as [Hp _]. simpl. now rewrite Hp.
Qed.



Lemma py_set_ok v l :
  py_set set_iter v = Ok l -> exists l0, py_iter v = Ok l0 /\ l = set_iter l0.
Proof.
  unfold py_set. destruct (py_iter v) as [l0|]; [|discriminate].
  destruct (forallb hashable l0); [|discriminate].
  intros [= <-]. eauto.
Qed.

Lemma run_loop_tokens body :
  (forall output (w : World),
      match body output w with
      | (r, t, _) =>
          attempt_tokens t = [] \/
          exists token, output = JStr token /\ attempt_tokens t = [token]
      end) ->
  forall outputs w,
    NoDup (strings_of outputs) ->
    match @run_loop World body outputs w with
    | (g, t, _) => NoDup (attempt_tokens t) /\ incl (attempt_tokens t) (strings_of outputs)
    end.
Proof.
  intros Hbody outputs. induction outputs as [|output rest IH]; intros w Hnd; simpl.
  - split; [constructor | apply incl_refl].
  - specialize (Hbody output w).
    assert (Hrest : NoDup (strings_of rest)).
    { unfold strings_of in *. simpl in Hnd. now apply NoDup_app_remove_l in Hnd. }
    destruct (body output w) as [[[y | e] t] w1].
    + specialize (IH w1 Hrest). destruct (run_loop body rest w1) as [[g t'] w2].
      destruct IH as [IH1 IH2]. rewrite attempt_tokens_app.
      destruct Hbody as [-> | [token [-> ->]]]; simpl.
      * split; [assumption|]. unfold strings_of. simpl.
        now apply incl_appr.
      * unfold strings_of in *. simpl in *. inversion Hnd; subst. split.
        -- constructor; [|assumption]. intro Hin. apply H1. now apply IH2.
        -- apply incl_cons; [now left|]. now apply incl_tl.
    + destruct Hbody as [-> | [token [-> ->]]]; simpl.
      * split; [constructor | intros x []].
      * split; [repeat constructor; intros [] |].
        unfold strings_of. simpl. intros x [<- | []]. now left.
Qed.

Lemma status_tokens t :
  NoDup (attempt_tokens t) ->
  NoDup (map snd (flat_map status_of (attempts t))) /\
  incl (map snd (flat_map status_of (attempts t))) (attempt_tokens t).
Proof.
  induction t as [|ev t IH]; simpl; intro H.
  - split; [constructor | apply incl_refl].
  - destruct ev as [r | s d rn a o]; simpl in *; [auto|].
    inversion H; subst. destruct (IH H3) as [IH1 IH2].
    destruct o as [sent | e]; simpl.
    + split; [constructor; auto | ].
      apply incl_cons; [now left | now apply incl_tl].
    + destruct (is_Exception e); simpl.
      * split; [constructor; auto | ].
        apply incl_cons; [now left | now apply incl_tl].
      * split; [assumption | now apply incl_tl].
Qed.

Lemma attempts_for_in s d t :
  attempts_for s d t <> [] -> In (token_of s d) (attempt_tokens t).
Proof.
  induction t as [|ev t IH]; simpl; [congruence|].
  destruct ev as [r | s' d' rn a o]; simpl; [exact IH|].
  destruct (String.eqb_spec s' s) as [->|Hs]; simpl.
  - destruct (String.eqb_spec d' d) as [->|Hd]; simpl; [now left | auto].
  - auto.
Qed.

Lemma attempts_for_once s d t :
  NoDup (attempt_tokens t) -> List.length (attempts_for s d t) <= 1.
Proof.
  induction t as [|ev t IH]; simpl; intro H; [lia|].
  destruct ev as [r | s' d' rn a o]; simpl in *; [auto|].
  inversion H; subst.
  destruct ((s' =? s)%string && (d' =? d)%string) eqn:E; [|auto].
  apply andb_true_iff in E as [Es Ed].
  apply String.eqb_eq in Es, Ed. subst.
  destruct (attempts_for s d t) eqn:Et; simpl; [lia|].
  exfalso. apply H2. apply attempts_for_in. congruence.
Qed.

(** C8.  [set(outputs)] holds each token once, so in every run no token is
    attempted twice, no token is yielded twice, and no destination sees more
    than one attempt. *)
Theorem duplicates_dispatched_once :
  (forall l, NoDup (strings_of (set_iter l))) ->
  forall msg region function_name config (w : World),
    match run get_output_dispatcher set_iter msg region function_name config w with
    | (g, t, _) =>
        NoDup (attempt_tokens t) /\
        NoDup (map snd (yielded g)) /\
        (forall service descriptor,
            List.length (attempts_for service descriptor t) <= 1)
    end.
Proof.
  intros Hset msg region function_name config w.
  pose proof (run_status msg region function_name config w) as Hst.
  assert (Ht : match run get_output_dispatcher set_iter msg region function_name config w with
               | (_, t, _) => NoDup (attempt_tokens t)
               end).
  { unfold run. pose proof (run_prelude_attempts msg w) as Hp.
    destruct (run_prelude set_iter msg w)
      as [[[[[rule_name alert] tokens] | e] t] w1] eqn:Hpre.
    - destruct Hp as [_ [Hp _]].
      assert (Htok : NoDup (strings_of tokens)).
      { revert Hpre. unfold run_prelude. monad_simpl.
        repeat (break_inner; simpl; try discriminate).
        intros [= <- <- <- <- <-].
        match goal with
        | H : py_set set_iter _ = Ok _ |- _ => apply py_set_ok in H as [l0 [_ ->]]
        end.
        apply Hset. }
      pose proof (run_loop_tokens
                    (run_output get_output_dispatcher rule_name alert region function_name config)) as Hl.
      match type of Hl with ?P -> _ => assert (Hb : P) end.
      { intros output w0.
        pose proof (run_output_attempt rule_name alert region function_name config output w0) as H.
        destruct (run_output _ _ _ _ _ _ _ _) as [[r t0] w2]. apply H. }
      specialize (Hl Hb tokens w1 Htok).
      destruct (run_loop _ tokens w1) as [[g t'] w2].
      rewrite attempt_tokens_app, Hp. apply Hl.
    - destruct Hp as [_ [-> _]]. constructor. }
  destruct (run _ _ _ _ _ _ _) as [[g t] w'].
  split; [assumption|]. split.
  - rewrite Hst. now apply status_tokens.
  - intros. now apply attempts_for_once.
Qed.

(** ** The handler *)




Lemma handle_record_skip config region function_name st record sns (w : World) :
  py_get record "Sns" JNull = Ok sns ->
  py_truthy sns = false ->
  handle_record json_loads get_output_dispatcher set_iter config region function_name
    st record w = (Ok st, [], w).
Proof.
  intros Hsns Hfalsy. unfold handle_record. monad_simpl.
  rewrite Hsns. simpl. rewrite Hfalsy. reflexivity.
Qed.

(** C4 (as the code has it).  A record without an [Sns] field, or whose
    [Sns] field is empty, is skipped: its turn of the loop logs nothing and
    leaves the status values and the world as they were, the loop goes on
    with the records after it, and the handler returns what it returns for
    the batch without the record (the traces differ in the count of the
    first record logged alone). *)
Theorem record_without_sns_skipped :
  forall record sns,
    py_get record "Sns" JNull = Ok sns ->
    py_truthy sns = false ->
    (forall config region function_name st (w : World),
        handle_record json_loads get_output_dispatcher set_iter config region
          function_name st record w = (Ok st, [], w)) /\
    (forall config region function_name before after st (w : World),
        handle_records json_loads get_output_dispatcher set_iter config region
          function_name (before ++ record :: after) st w
        = handle_records json_loads get_output_dispatcher set_iter config region
            function_name (before ++ after) st w) /\
    (forall event event' context before after (w : World),
        py_get event "Records" (JArr []) = Ok (JArr (before ++ record :: after)) ->
        py_get event' "Records" (JArr []) = Ok (JArr (before ++ after)) ->
        match handler json_loads open_file get_output_dispatcher set_iter event context w,
              handler json_loads open_file get_output_dispatcher set_iter event' context w
        with
        | (r, t, w1), (r', t', w1') => r = r' /\ w1 = w1' /\ tl t = tl t'
        end).
Proof.
  intros record sns Hsns Hfalsy.
  assert (Hloop : forall config region function_name before after st (w : World),
    handle_records json_loads get_output_dispatcher set_iter config region
      function_name (before ++ record :: after) st w
    = handle_records json_loads get_output_dispatcher set_iter config region
        function_name (before ++ after) st w).
  { intros config region function_name.
    induction before as [|r before IH]; intros after st w; simpl; unfold bind.
    - rewrite (handle_record_skip _ _ _ _ _ _ _ Hsns Hfalsy).
      destruct (handle_records _ _ _ _ _ _ after st w) as [[r t] w']. reflexivity.
    - destruct (handle_record _ _ _ _ _ _ st r w) as [[[st' | e] t] w']; [|reflexivity].
      now rewrite IH. }
  split; [|split].
  - intros. eapply handle_record_skip; eauto.
  - exact Hloop.
  - intros event event' context before after w Hev Hev'.
    unfold handler, _load_output_config.
    remember (nth_error (split colon (invoked_function_arn context)) 3) as found.
    monad_simpl. rewrite Hev, Hev'. simpl.
    destruct (open_file conf_outputs) as [text|]; simpl; [|auto].
    destruct (json_loads text) as [config|err]; simpl;
      [|destruct (is_ValueError err); simpl; auto].
    destruct (py_truthy config); simpl; [|auto].
    destruct found as [region|]; simpl; [|auto].
    rewrite Hloop.
    destruct (handle_records _ _ _ _ _ _ (before ++ after) [] w) as [[[st | e] t] w'];
      simpl; auto.
Qed.

(** The two ways the configuration fails to load.  When [json.load] raises
    [ValueError] the handler logs the error and returns [None]: no record
    is looked at and nothing is raised.  When the file cannot be opened the
    error of [open] leaves the handler, unlogged; no record is looked at
    either. *)
Theorem unusable_config_aborts_batch :
  forall event context recs n (w : World),
    py_get event "Records" (JArr []) = Ok recs ->
    py_len recs = Ok n ->
    (forall text,
        open_file conf_outputs = Some text ->
        json_loads text = Raise ValueError ->
        handler json_loads open_file get_output_dispatcher set_iter event context w
        = (Ok None, [Log (Info_running n); Log Error_config_not_json], w)) /\
    (open_file conf_outputs = None ->
     handler json_loads open_file get_output_dispatcher set_iter event context w
     = (Raise IOError, [Log (Info_running n)], w)).
Proof.
  intros event context recs n w Hrecs Hlen. split.
  - intros text Hopen Hloads. unfold handler, _load_output_config. monad_simpl.
    rewrite Hrecs. simpl. rewrite Hlen. simpl. rewrite Hopen, Hloads. reflexivity.
  - intro Hopen. unfold handler, _load_output_config. monad_simpl.
    rewrite Hrecs. simpl. rewrite Hlen. simpl. rewrite Hopen. reflexivity.
Qed.

(** C10.  A configuration file that parses to a falsy value ([{}], [[]],
    [null], [0], ...) ends the handler as a file that does not parse does:
    it returns [None] before any record is looked at.  The two traces differ
    by the error record of the parse failure alone. *)
Theorem falsy_config_aborts_batch :
  forall event context recs n (w : World) text config,
    py_get event "Records" (JArr []) = Ok recs ->
    py_len recs = Ok n ->
    open_file conf_outputs = Some text ->
    json_loads text = Ok config ->
    py_truthy config = false ->
    handler json_loads open_file get_output_dispatcher set_iter event context w
    = (Ok None, [Log (Info_running n)], w) /\
    (forall open_file' text',
        open_file' conf_outputs = Some text' ->
        json_loads text' = Raise ValueError ->
        match handler json_loads open_file get_output_dispatcher set_iter event context w,
              handler json_loads open_file' get_output_dispatcher set_iter event context w
        with
        | (r, t, w1), (r', t', w1') =>
            r = r' /\ w1 = w1' /\ t' = t ++ [Log Error_config_not_json]
        end).
Proof.
  intros event context recs n w text config Hrecs Hlen Hopen Hloads Hfalsy.
  assert (H : handler json_loads open_file get_output_dispatcher set_iter event context w
              = (Ok None, [Log (Info_running n)], w)).
  { unfold handler, _load_output_config. monad_simpl.
    rewrite Hrecs. simpl. rewrite Hlen. simpl. rewrite Hopen, Hloads. simpl.
    rewrite Hfalsy. reflexivity. }
  split; [exact H|].
  intros open_file' text' Hopen' Hloads'. rewrite H.
  unfold handler, _load_output_config. monad_simpl.
  rewrite Hrecs. simpl. rewrite Hlen. simpl. rewrite Hopen', Hloads'. simpl. auto.
Qed.

End ProcessorProperties.

(** ** The claims on the canonicalizer *)

Lemma at_path_app p q : forall v,
  at_path (p ++ q) v
  = match at_path p v with
    | Some x => at_path q x
    | None => None
    end.
Proof.
  induction p as [|s p IH]; intro v; simpl; [reflexivity|].
  destruct s as [k | i]; destruct v; try reflexivity.
  - destruct (lookup k items); [apply IH | reflexivity].
  - destruct (nth_error items i); [apply IH | reflexivity].
Qed.

Lemma at_path_sort_dict_value p d v :
  wf (JObj d) -> at_path p (JObj d) = Some v -> is_dict v = false ->
  at_path p (JObj (_sort_dict d)) = Some v.
Proof.
  intros Hwf Hv Hnd. pose proof (at_path_sort_dict p d Hwf) as H.
  rewrite Hv in H. destruct (at_path p (JObj (_sort_dict d))) as [v'|];
    destruct v; simpl in *; try contradiction; try discriminate; congruence.
Qed.

(** C1 (as the code has it).  After canonicalization every dict reached
    from the alert through dict values alone has its keys in sorted order,
    and a value that is not a dict, a list with all it holds included, is
    passed through as it was: under each key the result holds the value the
    alert held, canonicalized if it is a dict and unchanged if not; every
    path that led to a value that is no dict leads to the same value; and
    every path through a list leads where it led. *)
Theorem sort_dict_sorts_nested_mappings :
  forall d,
    mappings_sorted (JObj (_sort_dict d)) = true /\
    (forall k v, In (k, v) (_sort_dict d) -> is_dict v = false -> In (k, v) d) /\
    (wf (JObj d) ->
     (forall k, lookup k (_sort_dict d) = option_map canon_value (lookup k d)) /\
     (forall p v, at_path p (JObj d) = Some v -> is_dict v = false ->
                  at_path p (JObj (_sort_dict d)) = Some v) /\
     (forall p l q, at_path p (JObj d) = Some (JArr l) ->
                    at_path (p ++ q) (JObj (_sort_dict d)) = at_path (p ++ q) (JObj d))).
Proof.
  intro d. split; [apply _sort_dict_mappings_sorted|]. split.
  - intros k v Hin Hv. apply in_sort_dict in Hin as [[k' v'] [Hin E]].
    unfold canon_item in E. simpl in E. injection E as -> ->.
    destruct v'; simpl in *; try assumption. discriminate.
  - intro Hwf. split; [|split].
    + intro k. apply lookup_sort_dict. apply Hwf.
    + intros p v Hv Hnd. now apply at_path_sort_dict_value.
    + intros p l q Hl. rewrite !at_path_app.
      rewrite (at_path_sort_dict_value p d (JArr l) Hwf Hl eq_refl). now rewrite Hl.
Qed.

Lemma sort_dict_sorts_nested_mappings_witness :
  wf (JObj dict_under_list) /\
  lookup "z" (_sort_dict dict_under_list) = Some (JInt 0) /\
  at_path [Key "a"; Index 0; Key "b"] (JObj (_sort_dict dict_under_list)) = Some (JInt 1).
Proof.
  assert (Hwf : wf (JObj dict_under_list)).
  { simpl. repeat split; repeat constructor; simpl; intuition discriminate. }
  destruct (sort_dict_sorts_nested_mappings dict_under_list) as [_ [_ H]].
  destruct (H Hwf) as [Hlookup [_ Hlist]].
  split; [exact Hwf|]. split.
  - exact (Hlookup "z").
  - exact (Hlist [Key "a"] [JObj [("b", JInt 1); ("a", JInt 2)]] [Index 0; Key "b"] eq_refl).
Defined.

(** C1 (as stated) fails: a dict inside a list keeps the order it had. *)
Lemma dict_under_list_not_sorted :
  wf (JObj dict_under_list) /\
  _sort_dict dict_under_list =
    [("a", JArr [JObj [("b", JInt 1); ("a", JInt 2)]]); ("z", JInt 0)] /\
  all_mappings_sorted (JObj (_sort_dict dict_under_list)) = false.
Proof.
  split; [|split; reflexivity].
  simpl. repeat split; repeat constructor; simpl; intuition discriminate.
Qed.

(** C6.  Canonicalization is idempotent. *)
Theorem sort_dict_idempotent :
  forall d, _sort_dict (_sort_dict d) = _sort_dict d.
Proof.
  intro d. apply _sort_dict_fixed, _sort_dict_mappings_sorted.
Qed.


(** ** The claims on concrete inputs *)

Lemma first_seen_strings l : forall seen,
  NoDup (strings_of (first_seen seen l)) /\
  (forall s, In s (strings_of (first_seen seen l)) -> ~ In s seen).
Proof.
  induction l as [|v l IH]; intro seen; simpl.
  - split; [constructor | intros s []].
  - destruct v; try exact (IH seen).
    destruct (existsb (String.eqb s) seen) eqn:E; [exact (IH seen)|].
    destruct (IH (s :: seen)) as [IH1 IH2].
    unfold strings_of in *. simpl. split.
    + constructor; [|assumption]. intro Hin. apply (IH2 s Hin). now left.
    + intros s' [<- | Hin].
      * intro Hs. assert (existsb (String.eqb s) seen = true); [|congruence].
        apply existsb_exists. exists s. split; [assumption | apply String.eqb_refl].
      * intro Hs. apply (IH2 s' Hin). now right.
Qed.

Lemma in_order_NoDup l : NoDup (strings_of (in_order l)).
Proof. apply first_seen_strings. Qed.

(** The scenario of the design document: one valid destination, listed
    twice, and one malformed token give one status value. *)
Example handler_scenario :
  handler sample_loads (files_with "outputs") sample_registry in_order
    (batch [record_without_sns; sns_record "alert"]) sample_context []
  = (Ok (Some [(true, "slack:ok")]),
     [Log (Info_running 2);
      Log (Debug_message (sample_message [JStr "slack:ok"; JStr "bogus"; JStr "slack:ok"]));
      Log (Debug_sending "slack" "ok");
      Dispatch "slack" "ok" (JStr "r1")
        (JObj [("metadata", JObj [("outputs", JArr [JStr "slack:ok"; JStr "bogus"; JStr "slack:ok"]);
                                  ("rule_name", JStr "r1")]);
               ("record", JObj [("a", JInt 2); ("b", JInt 1)])])
        (Ok true);
      Log (Error_improperly_formatted "bogus")],
     [("slack", "ok")]).
Proof. reflexivity. Qed.




Lemma duplicates_dispatched_once_witness :
  (forall l, NoDup (strings_of (in_order l))) /\
  match run sample_registry in_order
          (sample_message [JStr "slack:ok"; JStr "bogus"; JStr "slack:ok"])
          "us-east-1" "alerts" sample_config [] with
  | (g, t, w) =>
      yielded g = [(true, "slack:ok")] /\ w = [("slack", "ok")] /\
      NoDup (attempt_tokens t) /\
      NoDup (map snd (yielded g)) /\
      (forall service descriptor, List.length (attempts_for service descriptor t) <= 1)
  end.
Proof.
  split; [exact in_order_NoDup|].
  pose proof (duplicates_dispatched_once sample_registry in_order in_order_NoDup
                (sample_message [JStr "slack:ok"; JStr "bogus"; JStr "slack:ok"])
                "us-east-1" "alerts" sample_config []) as H.
  destruct (run _ _ _ _ _ _ _) as [[g t] w] eqn:E.
  vm_compute in E. injection E as <- <- <-.
  split; [reflexivity|]. split; [reflexivity|]. exact H.
Defined.


Lemma record_without_sns_skipped_witness :
  py_get record_without_sns "Sns" JNull = Ok JNull /\
  py_truthy JNull = false /\
  handle_records sample_loads sample_registry in_order sample_config "us-east-1" "alerts"
    [sns_record "alert"; record_without_sns; sns_record "page"] [] []
  = handle_records sample_loads sample_registry in_order sample_config "us-east-1" "alerts"
      [sns_record "alert"; sns_record "page"] [] [].
Proof.
  split; [reflexivity|]. split; [reflexivity|].
  apply (proj1 (proj2 (record_without_sns_skipped sample_loads no_files sample_registry
                         in_order record_without_sns JNull eq_refl eq_refl))
           sample_config "us-east-1" "alerts" [sns_record "alert"] [sns_record "page"]).
Defined.

(** C4 (as stated) fails on a record whose [Sns] field is a dict without a
    [Message] key: the lookup raises [KeyError], which leaves the handler;
    the records after it are not processed. *)
Lemma record_without_message_raises :
  handle_record sample_loads sample_registry in_order sample_config "us-east-1" "alerts"
    [] record_without_message []
  = (Raise KeyError, [], []) /\
  handler sample_loads (files_with "outputs") sample_registry in_order
    (batch [record_without_message; sns_record "alert"]) sample_context []
  = (Raise KeyError, [Log (Info_running 2)], []).
Proof. split; reflexivity. Qed.

Lemma unusable_config_aborts_batch_witness :
  py_get (batch [sns_record "alert"]) "Records" (JArr []) = Ok (JArr [sns_record "alert"]) /\
  py_len (JArr [sns_record "alert"]) = Ok 1 /\
  handler sample_loads (files_with "garbage") sample_registry in_order
    (batch [sns_record "alert"]) sample_context []
  = (Ok None, [Log (Info_running 1); Log Error_config_not_json], []) /\
  handler sample_loads no_files sample_registry in_order
    (batch [sns_record "alert"]) sample_context []
  = (Raise IOError, [Log (Info_running 1)], []).
Proof.
  split; [reflexivity|]. split; [reflexivity|]. split.
  - apply (proj1 (unusable_config_aborts_batch sample_loads (files_with "garbage")
                    sample_registry in_order (batch [sns_record "alert"]) sample_context
                    (JArr [sns_record "alert"]) 1 [] eq_refl eq_refl) "garbage");
      reflexivity.
  - apply (proj2 (unusable_config_aborts_batch sample_loads no_files
                    sample_registry in_order (batch [sns_record "alert"]) sample_context
                    (JArr [sns_record "alert"]) 1 [] eq_refl eq_refl)).
    reflexivity.
Defined.

(** C2.  With the configuration file missing the handler does not do what
    the comment above its call of [_load_output_config] says, and what it
    does for a file that does not parse (log the error and return): [open]
    is outside the [try], so [IOError] leaves the handler, and nothing is
    logged. *)
Lemma missing_config_raises :
  no_files conf_outputs = None /\
  handler sample_loads no_files sample_registry in_order
    (batch [sns_record "alert"]) sample_context []
  = (Raise IOError, [Log (Info_running 1)], []) /\
  handler sample_loads (files_with "garbage") sample_registry in_order
    (batch [sns_record "alert"]) sample_context []
  = (Ok None, [Log (Info_running 1); Log Error_config_not_json], []).
Proof. repeat split. Qed.

Lemma falsy_config_aborts_batch_witness :
  sample_loads "empty" = Ok (JObj []) /\
  py_truthy (JObj []) = false /\
  handler sample_loads (files_with "empty") sample_registry in_order
    (batch [sns_record "alert"]) sample_context []
  = (Ok None, [Log (Info_running 1)], []).
Proof.
  split; [reflexivity|]. split; [reflexivity|].
  apply (proj1 (falsy_config_aborts_batch sample_loads (files_with "empty")
                  sample_registry in_order (batch [sns_record "alert"]) sample_context
                  (JArr [sns_record "alert"]) 1 [] "empty" (JObj [])
                  eq_refl eq_refl eq_refl eq_refl eq_refl)).
Defined.


(** ** The canonicalizer on the store *)

Example sort_dict_store_sample :
  sort_dict_store 2 2 sample_store =
    Some (3, sample_store ++ [ODict [("a", VRef 4); ("b", VRef 0)];
                              ODict [("c", VInt 2); ("d", VInt 1)]]).
Proof. reflexivity. Qed.

Lemma all_some_Forall2 {A B : Type} (f : A -> option B) l l' :
  all_some (map f l) = Some l' <-> Forall2 (fun x y => f x = Some y) l l'.
Proof.
  revert l'. induction l as [|x l IH]; intro l'; simpl.
  - split.
    + intros [= <-]. constructor.
    + intro H. inversion H. reflexivity.
  - destruct (f x) as [y|] eqn:E.
    + destruct (all_some (map f l)) as [ys|] eqn:Es; simpl.
      * split.
        -- intros [= <-]. constructor; [assumption | now apply IH].
        -- intro H. inversion H; subst. apply IH in H4. congruence.
      * split; [discriminate|]. intro H. inversion H; subst.
        apply IH in H4. discriminate.
    + split; [discriminate|]. intro H. inversion H; subst. congruence.
Qed.

Lemma store_update_length h a o : List.length (store_update h a o) = List.length h.
Proof.
  revert a. induction h as [|x h IH]; intros [|a]; simpl; auto.
Qed.

Lemma store_update_other h a o b :
  b <> a -> nth_error (store_update h a o) b = nth_error h b.
Proof.
  revert a b. induction h as [|x h IH]; intros [|a] [|b] H; simpl; auto;
    try contradiction.
Qed.

Lemma store_update_same h a o :
  a < List.length h -> nth_error (store_update h a o) a = Some o.
Proof.
  revert a. induction h as [|x h IH]; intros [|a] H; simpl in *; try lia; auto.
  apply IH. lia.
Qed.

Lemma item_rel_impl (Q Q' : pyval -> json -> Prop) l l' :
  (forall v j, Q v j -> Q' v j) ->
  Forall2 (item_rel Q) l l' -> Forall2 (item_rel Q') l l'.
Proof.
  intros H. induction 1 as [|x y l l' [Hk Hq] _ IH]; constructor; auto.
  split; auto.
Qed.

Lemma insert_item_rel Q x y l l' :
  item_rel Q x y -> Forall2 (item_rel Q) l l' ->
  Forall2 (item_rel Q) (insert_item x l) (insert_item y l').
Proof.
  intros Hxy H. induction H as [|a b l l' Hab Hl IH]; simpl.
  - constructor; [assumption | constructor].
  - rewrite <- (proj1 Hxy), <- (proj1 Hab).
    destruct (fst x <=? fst a)%string.
    + constructor; [assumption|]. constructor; assumption.
    + constructor; assumption.
Qed.

Lemma sorted_rel Q l l' :
  Forall2 (item_rel Q) l l' -> Forall2 (item_rel Q) (sorted l) (sorted l').
Proof.
  induction 1; simpl; [constructor|]. now apply insert_item_rel.
Qed.

Lemma setitem_rel Q acc acc' k v j :
  Forall2 (item_rel Q) acc acc' -> Q v j ->
  Forall2 (item_rel Q) (setitem acc k v) (setitem acc' k j).
Proof.
  intros H Hq. induction H as [|[a x] [b y] l l' [Hk Hx] Hl IH]; simpl in *.
  - constructor; [split; auto | constructor].
  - subst b. destruct (a =? k)%string.
    + constructor; [split; auto | assumption].
    + constructor; [split; auto | assumption].
Qed.

(** A value that stands for something stands for the same in every store
    that agrees on the addresses in use. *)
Lemma json_of_frame n : forall h v j,
  json_of n h v = Some j ->
  forall hy, (forall b, b < List.length h -> nth_error hy b = nth_error h b) ->
  json_of n hy v = Some j.
Proof.
  induction n as [|n IH]; intros h v j H hy Hagree.
  - destruct v; simpl in *; congruence.
  - destruct v; simpl in *; try congruence.
    destruct (nth_error h address) as [o|] eqn:E; [|discriminate].
    rewrite Hagree by (apply nth_error_Some; congruence). rewrite E.
    destruct o as [items | items].
    + destruct (all_some (map (json_of n h) items)) as [l|] eqn:El; [|discriminate].
      apply all_some_Forall2 in El.
      assert (El' : Forall2 (fun x y => json_of n hy x = Some y) items l).
      { eapply Forall2_impl; [|exact El]. intros x y Hxy. exact (IH _ _ _ Hxy hy Hagree). }
      apply all_some_Forall2 in El'. now rewrite El'.
    + destruct (all_some _) as [l|] eqn:El; [|discriminate].
      apply all_some_Forall2 in El.
      assert (El' : Forall2 (fun kv y => option_map (pair (fst kv)) (json_of n hy (snd kv)) = Some y)
                      items l).
      { eapply Forall2_impl; [|exact El]. intros kv y Hy. simpl in Hy.
        destruct (json_of n h (snd kv)) as [x|] eqn:Ex; [|discriminate].
        now rewrite (IH _ _ _ Ex hy Hagree). }
      apply all_some_Forall2 in El'. now rewrite El'.
Qed.

Lemma items_stand_for n (P : store -> Prop) items d :
  (exists hy, P hy) ->
  (forall hy, P hy ->
     Forall2 (fun kv y => option_map (pair (fst kv)) (json_of n hy (snd kv)) = Some y) items d) ->
  Forall2 (item_rel (fun v j => forall hy, P hy -> json_of n hy v = Some j)) items d.
Proof.
  intros [h0 H0] H. pose proof (H h0 H0) as F. revert H.
  induction F as [|kv y items d Hy _ IH]; intro H; constructor.
  - destruct (json_of n h0 (snd kv)) as [j|]; [|discriminate].
    injection Hy as <-. split; [reflexivity|]. simpl.
    intros hy Hhy. specialize (H hy Hhy). inversion H; subst.
    destruct (json_of n hy (snd kv)); [|discriminate]. simpl in *. congruence.
  - apply IH. intros hy Hhy. specialize (H hy Hhy). now inversion H.
Qed.

Lemma dict_at_Some h v a :
  dict_at h v = Some a -> v = VRef a /\ exists items, nth_error h a = Some (ODict items).
Proof.
  destruct v; simpl; try discriminate.
  destruct (nth_error h address) as [[|items]|] eqn:E; try discriminate.
  intros [= <-]. eauto.
Qed.

(** A value that is no dict stands for a value that is no dict. *)
Lemma dict_at_None fuel h v j :
  dict_at h v = None -> json_of fuel h v = Some j -> is_dict j = false.
Proof.
  intros H1 H2.
  destruct fuel; destruct v; simpl in *; try discriminate H2;
    try (injection H2 as <-; reflexivity).
  destruct (nth_error h address) as [[l|l]|];
    try discriminate H1; try discriminate H2.
  destruct (all_some _); simpl in H2; [|discriminate H2].
  injection H2 as <-. reflexivity.
Qed.

Lemma sort_step_not_dict acc k j :
  is_dict j = false -> sort_step _sort_dict acc (k, j) = setitem acc k j.
Proof. destruct j; simpl; congruence. Qed.

Lemma store_setitem_at hc r acc_items key value :
  nth_error hc r = Some (ODict acc_items) ->
  List.length (store_setitem hc r key value) = List.length hc /\
  nth_error (store_setitem hc r key value) r = Some (ODict (setitem acc_items key value)) /\
  (forall b, b <> r -> nth_error (store_setitem hc r key value) b = nth_error hc b).
Proof.
  intro H. unfold store_setitem. rewrite H. split; [apply store_update_length|]. split.
  - apply store_update_same. apply nth_error_Some. congruence.
  - intros. now apply store_update_other.
Qed.

Lemma json_of_dict n h a items j :
  nth_error h a = Some (ODict items) ->
  json_of n h (VRef a) = Some j -> exists d, j = JObj d.
Proof.
  intros Ha H. destruct n; simpl in H; [discriminate|]. rewrite Ha in H.
  destruct (all_some _) as [d|]; simpl in H; [|discriminate].
  injection H as <-. eauto.
Qed.

Lemma fold_store_spec n h B :
  sort_dict_store_spec n -> B <= List.length h ->
  forall l l', Forall2 (item_rel (stands_for n B 0 0 h)) l l' ->
  forall hc acc_items acc,
    List.length h < List.length hc ->
    (forall b, b < List.length h -> nth_error hc b = nth_error h b) ->
    nth_error hc (List.length h) = Some (ODict acc_items) ->
    Forall2 (item_rel (stands_for n B (S (List.length h)) (List.length hc) hc)) acc_items acc ->
    exists hf acc_items',
      fold_left (sort_step_store (sort_dict_store n) (List.length h)) l (Some hc) = Some hf /\
      List.length h < List.length hf /\
      (forall b, b < List.length h -> nth_error hf b = nth_error h b) /\
      nth_error hf (List.length h) = Some (ODict acc_items') /\
      Forall2 (item_rel (stands_for n B (S (List.length h)) (List.length hf) hf)) acc_items'
        (fold_left (sort_step _sort_dict) l' acc).
Proof.
  intros IHn HB l l' F.
  induction F as [|[key value] [key' jv] l l' [Hk Hq] _ IH];
    intros hc acc_items acc Hlen Hframe Hr Hacc.
  - simpl. eauto 10.
  - simpl in Hk, Hq. subst key'.
    assert (Hhc : agree_on B 0 0 hc h).
    { intros b [Hb | Hb]; [apply Hframe|]; lia. }
    pose proof (Hq hc Hhc) as Hread.
    cbn [fold_left]. unfold sort_step_store at 2.
    destruct (dict_at hc value) as [a'|] eqn:Hd.
    + apply dict_at_Some in Hd as [-> [its Hits]].
      destruct (json_of_dict _ _ _ _ _ Hits Hread) as [d' ->].
      assert (Hst : stands_for n B 0 0 hc (VRef a') (JObj d')).
      { intros hy Hy. apply Hq. intros b Hb. rewrite (Hy b Hb). now apply Hhc. }
      destruct (IHn hc B a' d' ltac:(lia) Hst) as [hc' [Hs [Hlen' [Hframe' Hstab]]]].
      rewrite Hs.
      assert (Hr' : nth_error hc' (List.length h) = Some (ODict acc_items)).
      { rewrite Hframe' by lia. exact Hr. }
      destruct (store_setitem_at hc' (List.length h) acc_items key (VRef (List.length hc)) Hr')
        as [L [Same Other]].
      apply (IH _ (setitem acc_items key (VRef (List.length hc)))).
      * rewrite L. lia.
      * intros b Hb. rewrite Other by lia. rewrite Hframe' by lia. now apply Hframe.
      * exact Same.
      * change (sort_step _sort_dict acc (key, JObj d'))
          with (setitem acc key (JObj (_sort_dict d'))).
        apply setitem_rel.
        -- eapply item_rel_impl; [|exact Hacc]. intros v j Hv hx Hx. apply Hv.
           intros b Hb. rewrite (Hx b) by (rewrite L; lia).
           rewrite Other by lia. apply Hframe'. lia.
        -- intros hx Hx. apply Hstab. intros b Hb.
           rewrite (Hx b) by (rewrite L; lia). apply Other. lia.
    + assert (Hj : is_dict jv = false) by (eapply dict_at_None; eauto).
      rewrite (sort_step_not_dict acc key jv Hj).
      destruct (store_setitem_at hc (List.length h) acc_items key value Hr)
        as [L [Same Other]].
      apply (IH _ (setitem acc_items key value)).
      * rewrite L. lia.
      * intros b Hb. rewrite Other by lia. now apply Hframe.
      * exact Same.
      * apply setitem_rel.
        -- eapply item_rel_impl; [|exact Hacc]. intros v j Hv hx Hx. apply Hv.
           intros b Hb. rewrite (Hx b) by (rewrite L; lia). apply Other. lia.
        -- intros hx Hx. apply Hq. intros b Hb.
           rewrite (Hx b) by lia. rewrite Other by lia. apply Hframe. lia.
Qed.

Lemma sort_dict_store_ok n : sort_dict_store_spec n.
Proof.
  induction n as [|n IHn]; intros h B a d HB H.
  - specialize (H h (fun _ _ => eq_refl)). discriminate H.
  - assert (Hfirst : agree_on B 0 0 (firstn B h) h).
    { intros b [Hb | Hb]; [|lia]. rewrite nth_error_firstn.
      destruct (Nat.ltb_spec b B); [reflexivity | lia]. }
    pose proof (H _ Hfirst) as H1. simpl in H1.
    destruct (nth_error (firstn B h) a) as [o|] eqn:E; [|discriminate].
    rewrite nth_error_firstn in E.
    destruct (Nat.ltb_spec a B) as [Ha|]; [|discriminate].
    destruct o as [l | items].
    { destruct (all_some _); discriminate. }
    clear H1.
    assert (Hitems : Forall2 (item_rel (stands_for n B 0 0 h)) items d).
    { apply (items_stand_for n (fun hy => agree_on B 0 0 hy h)).
      - exists h. intros b _. reflexivity.
      - intros hy Hy. specialize (H hy Hy). simpl in H.
        rewrite (Hy a (or_introl Ha)), E in H.
        destruct (all_some _) as [d0|] eqn:Es; simpl in H; [|discriminate].
        injection H as <-. now apply all_some_Forall2 in Es. }
    apply sorted_rel in Hitems.
    destruct (fold_store_spec n h B IHn HB _ _ Hitems (h ++ [ODict []]) [] [])
      as [hf [acc' [Hfold [Hlen [Hframe [Hr Hrel]]]]]].
    + rewrite length_app. simpl. lia.
    + intros b Hb. now apply nth_error_app1.
    + rewrite nth_error_app2 by lia. now rewrite Nat.sub_diag.
    + constructor.
    + exists hf. simpl. rewrite E, Hfold.
      split; [reflexivity|]. split; [exact Hlen|]. split; [exact Hframe|].
      intros hx Hx. simpl. rewrite (Hx (List.length h)) by lia. rewrite Hr.
      rewrite <- _sort_dict_eq in Hrel.
      assert (Hall : Forall2 (fun kv y => option_map (pair (fst kv)) (json_of n hx (snd kv)) = Some y)
                       acc' (_sort_dict d)).
      { eapply Forall2_impl; [|exact Hrel]. intros kv [k j] [Hk Hq]. simpl in *.
        rewrite (Hq hx); [now subst|]. intros b Hb. apply Hx. lia. }
      apply all_some_Forall2 in Hall. now rewrite Hall.
Qed.

(** C7.  For a dict [m] at an address of the store, [_sort_dict] returns
    the address of a new object and leaves every object there was as it is,
    so every value stands for what it stood for, [m] included.  The new dict
    stands for [_sort_dict m]: it has the keys of [m], in sorted order, and
    at every path the two agree: the path leads nowhere in both, or to dicts
    with the same keys, or to the same value. *)
Theorem sort_dict_preserves_content :
  forall n h a m,
    json_of n h (VRef a) = Some (JObj m) ->
    wf (JObj m) ->
    exists h',
      sort_dict_store n a h = Some (List.length h, h') /\
      nth_error h (List.length h) = None /\
      (forall b, b < List.length h -> nth_error h' b = nth_error h b) /\
      (forall v j, json_of n h v = Some j -> json_of n h' v = Some j) /\
      json_of n h' (VRef (List.length h)) = Some (JObj (_sort_dict m)) /\
      Permutation (keys m) (keys (_sort_dict m)) /\
      increasing (keys (_sort_dict m)) = true /\
      (forall p, agree (at_path p (JObj m)) (at_path p (JObj (_sort_dict m)))).
Proof.
  intros n h a m Hm Hwf.
  destruct (sort_dict_store_ok n h (List.length h) a m (Nat.le_refl _))
    as [h' [Hs [Hlen [Hframe Hres]]]].
  { intros hy Hy. eapply json_of_frame; [exact Hm|]. intros b Hb. apply Hy. now left. }
  exists h'. split; [exact Hs|]. split; [now apply nth_error_None|].
  split; [exact Hframe|]. split; [|split; [|split; [|split]]].
  - intros v j Hv. eapply json_of_frame; eauto.
  - apply Hres. intros b _. reflexivity.
  - apply keys_sort_dict. apply Hwf.
  - apply _sort_dict_increasing.
  - intro p. now apply at_path_sort_dict.
Qed.

Lemma sort_dict_preserves_content_witness :
  json_of 2 sample_store (VRef 2)
    = Some (JObj [("b", JArr [JInt 3; JInt 1]); ("a", JObj [("d", JInt 1); ("c", JInt 2)])]) /\
  exists h',
    sort_dict_store 2 2 sample_store = Some (3, h') /\
    json_of 2 h' (VRef 2) = json_of 2 sample_store (VRef 2) /\
    json_of 2 h' (VRef 3)
      = Some (JObj [("a", JObj [("c", JInt 2); ("d", JInt 1)]); ("b", JArr [JInt 3; JInt 1])]).
Proof.
  split; [reflexivity|].
  assert (Hwf : wf (JObj [("b", JArr [JInt 3; JInt 1]);
                          ("a", JObj [("d", JInt 1); ("c", JInt 2)])])).
  { simpl. repeat split; repeat constructor; simpl; intuition discriminate. }
  destruct (sort_dict_preserves_content 2 sample_store 2 _ eq_refl Hwf)
    as [h' [Hs [_ [_ [Hkeep [Hres _]]]]]].
  exists h'. split; [exact Hs|]. split; [|exact Hres].
  apply Hkeep. reflexivity.
Defined.

(** * Further properties *)

(** ** The canonicalizer *)

Lemma wf_dict_iff d :
  wf (JObj d) <-> NoDup (keys d) /\ (forall k v, In (k, v) d -> wf v).
Proof.
  simpl. unfold keys. split; intros [Hnd H]; (split; [exact Hnd|]).
  - induction d as [|[k' v'] d IH]; simpl in *; [intros k v []|].
    inversion Hnd; subst. destruct H as [Hv Hd].
    intros k v [[= -> ->] | Hin]; [assumption | eauto].
  - induction d as [|[k' v'] d IH]; simpl in *; [exact I|].
    inversion Hnd; subst. split; [apply (H k' v'); now left|].
    apply IH; [assumption|]. intros k v Hin. apply (H k v). now right.
Qed.

(** X1.  Canonicalization keeps a value a Python value: the result of
    [_sort_dict] on a dict with distinct keys at every level has distinct
    keys at every level. *)
Theorem sort_dict_wf :
  forall d, wf (JObj d) -> wf (JObj (_sort_dict d)).
Proof.
  apply (dict_depth_ind (fun d => wf (JObj d) -> wf (JObj (_sort_dict d)))).
  intros d IH Hwf. apply wf_dict_iff. split.
  - apply increasing_NoDup, _sort_dict_increasing.
  - intros k v Hin. apply in_sort_dict in Hin as [[k' v'] [Hin E]].
    unfold canon_item in E. simpl in E. injection E as -> ->.
    assert (Hv : wf v') by (eapply wf_in; eauto).
    destruct v'; simpl; try exact Hv.
    apply (IH k' items Hin Hv).
Qed.

Lemma sort_dict_wf_witness :
  wf (sample_alert [JStr "slack:ok"]) /\
  wf (canon_value (sample_alert [JStr "slack:ok"])).
Proof.
  assert (Hwf : wf (sample_alert [JStr "slack:ok"])).
  { simpl. repeat split; repeat constructor; simpl; intuition discriminate. }
  split; [exact Hwf|]. exact (sort_dict_wf _ Hwf).
Defined.

Lemma StronglySorted_keys_unique {V : Type} (a : list (string * V)) : forall b,
  StronglySorted key_lt (keys a) -> StronglySorted key_lt (keys b) ->
  Permutation a b -> a = b.
Proof.
  induction a as [|x a IH]; intros b Ha Hb Hp.
  - apply Permutation_nil in Hp. now subst.
  - destruct b as [|y b].
    { apply Permutation_sym, Permutation_nil in Hp. discriminate. }
    simpl in Ha, Hb. inversion Ha; subst. inversion Hb; subst.
    rewrite Forall_forall in H2, H4.
    assert (Hxy : x = y).
    { assert (Hx : In x (y :: b)) by (eapply Permutation_in; [exact Hp | now left]).
      assert (Hy : In y (x :: a))
        by (eapply Permutation_in; [symmetry; exact Hp | now left]).
      destruct Hx as [Hx | Hx]; [now subst|].
      destruct Hy as [Hy | Hy]; [now subst|].
      exfalso. apply (key_lt_irrefl (fst x)).
      apply (key_lt_trans _ (fst y)).
      - apply (H2 (fst y)). unfold keys. now apply in_map.
      - apply (H4 (fst x)). unfold keys. now apply in_map. }
    subst y. f_equal. apply IH; try assumption.
    eapply Permutation_cons_inv. exact Hp.
Qed.

Lemma sorted_increasing {V : Type} (l : list (string * V)) :
  NoDup (keys l) -> StronglySorted key_lt (keys (sorted l)).
Proof.
  intro Hnd.
  assert (Hnd' : NoDup (keys (sorted l))).
  { eapply Permutation_NoDup; [|exact Hnd]. symmetry.
    unfold keys. apply Permutation_map, sorted_perm. }
  pose proof (sorted_sorted l) as Hs.
  induction Hs as [|k ks Hs IH Hall]; [constructor|].
  inversion Hnd'; subst. constructor; [auto|].
  rewrite Forall_forall in *. intros k' Hk'.
  destruct (proj1 (key_le_iff k k') (Hall k' Hk')) as [Hlt | ->];
    [assumption | contradiction].
Qed.

(** With distinct keys, the sorted items do not depend on the order the
    items came in. *)
Lemma sorted_permutation {V : Type} (d l : list (string * V)) :
  NoDup (keys d) -> Permutation d l -> sorted d = sorted l.
Proof.
  intros Hnd Hp.
  assert (Hnl : NoDup (keys l)).
  { eapply Permutation_NoDup; [|exact Hnd]. unfold keys. now apply Permutation_map. }
  apply StronglySorted_keys_unique; try now apply sorted_increasing.
  rewrite sorted_perm, Hp. symmetry. apply sorted_perm.
Qed.

Lemma Forall2_keys {V W : Type} (R : V -> W -> Prop) (l : list (string * V)) l' :
  Forall2 (fun kv kv' => fst kv = fst kv' /\ R (snd kv) (snd kv')) l l' ->
  keys l = keys l'.
Proof.
  induction 1 as [|x y l l' [Hk _] _ IH]; simpl; [reflexivity|]. now rewrite Hk, IH.
Qed.

Lemma insert_item_Forall2 {V W : Type} (R : V -> W -> Prop)
    (x : string * V) (y : string * W) l l' :
  (fst x = fst y /\ R (snd x) (snd y)) ->
  Forall2 (fun kv kv' => fst kv = fst kv' /\ R (snd kv) (snd kv')) l l' ->
  Forall2 (fun kv kv' => fst kv = fst kv' /\ R (snd kv) (snd kv'))
    (insert_item x l) (insert_item y l').
Proof.
  intros Hxy H. induction H as [|a b l l' Hab Hl IH]; simpl.
  - constructor; [assumption | constructor].
  - rewrite <- (proj1 Hxy), <- (proj1 Hab).
    destruct (fst x <=? fst a)%string.
    + constructor; [assumption|]. constructor; assumption.
    + constructor; assumption.
Qed.

Lemma sorted_Forall2 {V W : Type} (R : V -> W -> Prop) (l : list (string * V)) l' :
  Forall2 (fun kv kv' => fst kv = fst kv' /\ R (snd kv) (snd kv')) l l' ->
  Forall2 (fun kv kv' => fst kv = fst kv' /\ R (snd kv) (snd kv'))
    (sorted l) (sorted l').
Proof.
  induction 1; simpl; [constructor|]. now apply insert_item_Forall2.
Qed.

(** X2.  The canonical form does not depend on the order of the items: two
    dicts that differ in the order of their items alone, at any level
    reached through dict values, have the same [_sort_dict]. *)
Theorem sort_dict_order_independent :
  forall d d', wf (JObj d) -> reordered (JObj d) (JObj d') ->
    _sort_dict d = _sort_dict d'.
Proof.
  apply (dict_depth_ind (fun d => forall d', wf (JObj d) -> reordered (JObj d) (JObj d') ->
                                   _sort_dict d = _sort_dict d')).
  intros d IH d' Hwf Hre.
  inversion Hre as [v Hv | d0 l d0' Hp HF]; subst; [discriminate|].
  apply wf_dict_iff in Hwf as [Hnd Hvals].
  assert (Hnl : NoDup (keys l)).
  { eapply Permutation_NoDup; [|exact Hnd]. unfold keys. now apply Permutation_map. }
  rewrite (_sort_dict_NoDup d Hnd).
  rewrite (_sort_dict_NoDup d') by (rewrite <- (Forall2_keys _ _ _ HF); exact Hnl).
  rewrite (sorted_permutation d l Hnd Hp).
  apply sorted_Forall2 in HF.
  assert (Hin : forall kv, In kv (sorted l) -> In kv d).
  { intros kv Hkv. apply (proj1 (in_sorted kv l)) in Hkv.
    eapply Permutation_in; [symmetry; exact Hp | exact Hkv]. }
  revert Hin. induction HF as [|[k v] [k' v'] s s' [Hk Hr] _ IHF]; intro Hin;
    [reflexivity|].
  simpl in Hk, Hr. subst k'. cbn [map]. f_equal.
  - unfold canon_item. cbn [fst snd]. f_equal.
    inversion Hr as [v0 Hv0 | a la a' Hpa HFa]; subst; [reflexivity|].
    cbn [canon_value]. f_equal. apply (IH k a); [apply Hin; now left | | exact Hr].
    apply (Hvals k (JObj a)). apply Hin. now left.
  - apply IHF. intros kv Hkv. apply Hin. now right.
Qed.

Lemma sort_dict_order_independent_witness :
  wf (sample_alert [JStr "slack:ok"]) /\
  reordered (sample_alert [JStr "slack:ok"]) (sample_alert_reordered [JStr "slack:ok"]) /\
  canon_value (sample_alert [JStr "slack:ok"])
    = canon_value (sample_alert_reordered [JStr "slack:ok"]).
Proof.
  assert (Hwf : wf (sample_alert [JStr "slack:ok"])).
  { simpl. repeat split; repeat constructor; simpl; intuition discriminate. }
  assert (Hre : reordered (sample_alert [JStr "slack:ok"])
                  (sample_alert_reordered [JStr "slack:ok"])).
  { unfold sample_alert, sample_alert_reordered.
    eapply reordered_dict; [apply perm_swap|].
    constructor; [split; [reflexivity|] | constructor; [split; [reflexivity|] | constructor]].
    - simpl. eapply reordered_dict; [apply perm_swap|].
      repeat (constructor; [split; [reflexivity | now apply reordered_same]|]).
      constructor.
    - simpl. eapply reordered_dict; [apply perm_swap|].
      repeat (constructor; [split; [reflexivity | now apply reordered_same]|]).
      constructor. }
  split; [exact Hwf|]. split; [exact Hre|].
  exact (f_equal JObj (sort_dict_order_independent _ _ Hwf Hre)).
Defined.

(** ** The canonicalizer on the store *)

Lemma fold_store_None rec r l :
  fold_left (sort_step_store rec r) l None = None.
Proof. induction l as [|kv l IH]; simpl; auto. Qed.

Lemma fold_store_frame rec h items :
  allocates_only rec ->
  forall l hc acc hf,
    List.length h < List.length hc ->
    (forall b, b < List.length h -> nth_error hc b = nth_error h b) ->
    nth_error hc (List.length h) = Some (ODict acc) ->
    fold_left (sort_step_store rec (List.length h)) l (Some hc) = Some hf ->
    exists acc',
      List.length h < List.length hf /\
      (forall b, b < List.length h -> nth_error hf b = nth_error h b) /\
      nth_error hf (List.length h) = Some (ODict acc') /\
      ((forall k a, In (k, VRef a) items -> a < List.length h) ->
       incl l items ->
       (forall k v, In (k, v) acc -> stored_by_sort h items k v) ->
       forall k v, In (k, v) acc' -> stored_by_sort h items k v).
Proof.
  intros Hrec. induction l as [|[key value] l IH]; intros hc acc hf Hlen Hframe Hr Hfold.
  - simpl in Hfold. injection Hfold as <-. exists acc. auto.
  - cbn [fold_left] in Hfold. unfold sort_step_store at 2 in Hfold.
    assert (Hsame : (forall k a, In (k, VRef a) items -> a < List.length h) ->
                    In (key, value) items -> dict_at hc value = dict_at h value).
    { intros Hclosed Hin. destruct value; try reflexivity. simpl.
      now rewrite Hframe by (eapply Hclosed; eauto). }
    destruct (dict_at hc value) as [a'|] eqn:Hd.
    + destruct (rec a' hc) as [[r' hc']|] eqn:Hcall;
        [|rewrite fold_store_None in Hfold; discriminate].
      destruct (Hrec _ _ _ _ Hcall) as [-> [Hlen' Hframe']].
      assert (Hr' : nth_error hc' (List.length h) = Some (ODict acc)).
      { rewrite Hframe' by lia. exact Hr. }
      destruct (store_setitem_at hc' (List.length h) acc key (VRef (List.length hc)) Hr')
        as [L [Same Other]].
      destruct (IH _ _ _ ltac:(rewrite L; lia)
                  ltac:(intros b Hb; rewrite Other by lia; rewrite Hframe' by lia;
                        now apply Hframe)
                  Same Hfold) as [acc' [H1 [H2 [H3 H4]]]].
      exists acc'. repeat (split; [assumption|]).
      intros Hclosed Hincl Hacc. apply H4; [assumption | |].
      * intros x Hx. apply Hincl. now right.
      * intros k v Hin. apply setitem_in in Hin as [Hin | [= -> ->]]; [auto|].
        right. apply dict_at_Some in Hd as [-> _].
        exists a', (List.length hc). split; [apply Hincl; now left|].
        split; [|split; [reflexivity | lia]].
        symmetry. apply (Hsame Hclosed). apply Hincl. now left.
    + destruct (store_setitem_at hc (List.length h) acc key value Hr)
        as [L [Same Other]].
      destruct (IH _ _ _ ltac:(rewrite L; lia)
                  ltac:(intros b Hb; rewrite Other by lia; now apply Hframe)
                  Same Hfold) as [acc' [H1 [H2 [H3 H4]]]].
      exists acc'. repeat (split; [assumption|]).
      intros Hclosed Hincl Hacc. apply H4; [assumption | |].
      * intros x Hx. apply Hincl. now right.
      * intros k v Hin. apply setitem_in in Hin as [Hin | [= -> ->]]; [auto|].
        left. split; [apply Hincl; now left|].
        symmetry. apply (Hsame Hclosed). apply Hincl. now left.
Qed.

Lemma sort_dict_store_allocates n : allocates_only (sort_dict_store n).
Proof.
  induction n as [|n IHn]; intros a h r h' H; simpl in H; [discriminate|].
  destruct (nth_error h a) as [[l | items]|]; try discriminate.
  destruct (fold_left _ _ _) as [hf|] eqn:Hfold; [|discriminate].
  injection H as <- <-.
  destruct (fold_store_frame _ h items IHn (sorted items) (h ++ [ODict []]) [] hf)
    as [acc' [H1 [H2 _]]]; auto.
  - rewrite length_app. simpl. lia.
  - intros b Hb. now apply nth_error_app1.
  - rewrite nth_error_app2 by lia. now rewrite Nat.sub_diag.
Qed.

(** X3.  Whenever [_sort_dict] returns, on any store, it returns the address
    of an object that was not there and has changed no object that was: the
    argument and everything reachable from it are as they were. *)
Theorem sort_dict_store_fresh :
  forall n a h r h',
    sort_dict_store n a h = Some (r, h') ->
    r = List.length h /\
    nth_error h r = None /\
    List.length h < List.length h' /\
    (forall b, b < List.length h -> nth_error h' b = nth_error h b).
Proof.
  intros n a h r h' H.
  destruct (sort_dict_store_allocates n a h r h' H) as [-> [H1 H2]].
  split; [reflexivity|]. split; [now apply nth_error_None|]. auto.
Qed.

Lemma sort_dict_store_fresh_witness :
  exists h',
    sort_dict_store 2 2 sample_store = Some (3, h') /\
    nth_error sample_store 3 = None /\
    nth_error h' 2 = nth_error sample_store 2.
Proof.
  destruct (sort_dict_store 2 2 sample_store) as [[r h']|] eqn:E; [|discriminate E].
  destruct (sort_dict_store_fresh 2 2 sample_store r h' E) as [-> [Hnew [_ Hframe]]].
  exists h'. split; [reflexivity|]. split; [exact Hnew|].
  apply Hframe. simpl. lia.
Defined.







(** ** The dispatch loop *)

Section ProcessorInvariants.

Context {World : Type}.
Variable json_loads : string -> result json.
Variable open_file : string -> option string.
Variable get_output_dispatcher :
  string -> string -> string -> json -> option (dispatcher World).
Variable set_iter : list json -> list json.

Lemma run_output_events rule_name alert region function_name config output (w : World) :
  match run_output get_output_dispatcher rule_name alert region function_name config output w with
  | (_, t, _) =>
      forall ev, In ev t -> is_dispatch ev = true ->
        exists token s d o,
          output = JStr token /\ split colon token = [s; d] /\
          ev = Dispatch s d rule_name alert o /\
          configured get_output_dispatcher region function_name config s d
  end.
Proof.
  unfold run_output.
  destruct output as [| | | |token| |]; try (simpl; intros ev []).
  destruct (split colon token) as [|service [|descriptor [|x l]]] eqn:Hsplit;
    try (simpl; intros ev [<- | []]; discriminate).
  monad_simpl.
  destruct (py_contains service config) as [[|]|] eqn:Hknown; simpl;
    try (intros ev [<- | []]; discriminate); try (intros ev []).
  destruct (py_getitem config service) as [entry|] eqn:Hentry; simpl;
    try (intros ev []).
  destruct (py_contains descriptor entry) as [[|]|] eqn:Hlisted; simpl;
    try (intros ev [<- | []]; discriminate); try (intros ev []).
  destruct (get_output_dispatcher service region function_name config) as [d|] eqn:Hd;
    simpl; try (intros ev []).
  assert (Hc : configured get_output_dispatcher region function_name config service descriptor).
  { split; [assumption|]. split; eauto. }
  destruct (d descriptor rule_name alert w) as [[sent | e] w1]; simpl.
  - intros ev [<- | [<- | []]]; [discriminate|]. intros _.
    exists token, service, descriptor, (Ok sent). auto.
  - destruct (is_Exception e); simpl.
    + intros ev [<- | [<- | [<- | []]]]; try discriminate. intros _.
      exists token, service, descriptor, (Raise e). auto.
    + intros ev [<- | [<- | []]]; try discriminate. intros _.
      exists token, service, descriptor, (Raise e). auto.
Qed.

Lemma run_loop_events body (P : json -> event -> Prop) :
  (forall output (w : World),
      match body output w with
      | (_, t, _) => forall ev, In ev t -> is_dispatch ev = true -> P output ev
      end) ->
  forall outputs w,
    match @run_loop World body outputs w with
    | (_, t, _) =>
        forall ev, In ev t -> is_dispatch ev = true ->
          exists output, In output outputs /\ P output ev
    end.
Proof.
  intros Hbody outputs. induction outputs as [|output rest IH]; intro w; simpl.
  - intros ev [].
  - specialize (Hbody output w).
    destruct (body output w) as [[[y | e] t] w1].
    + specialize (IH w1). destruct (run_loop body rest w1) as [[g t'] w2].
      intros ev Hin Hev. apply in_app_or in Hin as [Hin | Hin].
      * exists output. split; [now left | now apply Hbody].
      * destruct (IH ev Hin Hev) as [o [Ho HP]]. exists o. split; [now right | exact HP].
    + intros ev Hin Hev. exists output. split; [now left | now apply Hbody].
Qed.

Lemma run_prelude_ok msg (w : World) rule_name alert tokens t w' :
  run_prelude set_iter msg w = (Ok (rule_name, alert, tokens), t, w') ->
  prelude_of set_iter msg rule_name alert tokens /\
  t = [Log (Debug_message msg)] /\ w' = w.
Proof.
  unfold run_prelude. monad_simpl.
  destruct (py_getitem msg "default") as [a|] eqn:E1; simpl; [|discriminate].
  destruct (py_getitem a "metadata") as [m0|] eqn:E2; simpl; [|discriminate].
  destruct (py_getitem m0 "rule_name") as [rn|] eqn:E3; simpl; [|discriminate].
  destruct a as [| | | | | |d0]; simpl; try discriminate.
  destruct (lookup "metadata" (_sort_dict d0)) as [m|] eqn:E4; simpl; [|discriminate].
  destruct (py_getitem m "outputs") as [outputs|] eqn:E5; simpl; [|discriminate].
  destruct (py_set set_iter outputs) as [toks|] eqn:E6; simpl; [|discriminate].
  intros [= <- <- <- <- <-]. split; [|auto].
  unfold py_set in E6. destruct (py_iter outputs) as [l|] eqn:E7; [|discriminate].
  destruct (forallb hashable l); [|discriminate]. injection E6 as <-.
  exists d0, m0, m, outputs, l. simpl. rewrite E4. auto 10.
Qed.

Lemma run_events msg region function_name config (w : World) :
  match run get_output_dispatcher set_iter msg region function_name config w with
  | (_, t, _) =>
      forall ev, In ev t -> is_dispatch ev = true ->
        exists rule_name alert tokens token s d o,
          prelude_of set_iter msg rule_name alert tokens /\
          In (JStr token) tokens /\ split colon token = [s; d] /\
          ev = Dispatch s d rule_name alert o /\
          configured get_output_dispatcher region function_name config s d
  end.
Proof.
  unfold run.
  destruct (run_prelude set_iter msg w)
    as [[[[[rule_name alert] tokens] | e] t] w1] eqn:Hpre.
  - apply run_prelude_ok in Hpre as [Hp [-> ->]].
    pose proof (run_loop_events
                  (run_output get_output_dispatcher rule_name alert region function_name config)
                  (fun output ev => exists token s d o,
                       output = JStr token /\ split colon token = [s; d] /\
                       ev = Dispatch s d rule_name alert o /\
                       configured get_output_dispatcher region function_name config s d))
      as Hl.
    match type of Hl with ?P -> _ => assert (Hb : P) end.
    { intros output w0. apply run_output_events. }
    specialize (Hl Hb tokens w).
    destruct (run_loop _ tokens w) as [[g t'] w2].
    intros ev [<- | Hin] Hev; [discriminate|].
    destruct (Hl ev Hin Hev) as [output [Ho [token [s [d [o [-> [Hs [He Hc]]]]]]]]].
    exists rule_name, alert, tokens, token, s, d, o. auto 10.
  - assert (Ht : attempts t = []).
    { pose proof (run_prelude_attempts set_iter msg w) as H. rewrite Hpre in H. apply H. }
    intros ev Hin Hev. exfalso.
    assert (Hin' : In ev (attempts t)) by (apply filter_In; auto).
    rewrite Ht in Hin'. destruct Hin'.
Qed.

(** X5.  [run] never calls a dispatcher for a destination the configuration
    does not list: every attempt of every run is for a service that is a key
    of the configuration, a descriptor its entry holds, and a dispatcher the
    registry returned. *)
Theorem run_dispatches_configured_only :
  forall msg region function_name config (w : World),
    match run get_output_dispatcher set_iter msg region function_name config w with
    | (_, t, _) =>
        forall s d rn a o, In (Dispatch s d rn a o) t ->
          configured get_output_dispatcher region function_name config s d
    end.
Proof.
  intros msg region function_name config w.
  pose proof (run_events msg region function_name config w) as H.
  destruct (run _ _ _ _ _ _ _) as [[g t] w'].
  intros s d rn a o Hin.
  destruct (H _ Hin eq_refl) as [rn' [a' [toks [token [s' [d' [o' [_ [_ [_ [[= -> -> -> -> ->] Hc]]]]]]]]]]].
  exact Hc.
Qed.

(** X6.  Every dispatcher is handed the alert in canonical form, the result
    of [_sort_dict] on the alert of the message, with the rule name read
    from the alert's metadata. *)
Theorem run_dispatches_canonical_alert :
  forall msg region function_name config (w : World),
    match run get_output_dispatcher set_iter msg region function_name config w with
    | (_, t, _) =>
        forall s d rn a o, In (Dispatch s d rn a o) t ->
          exists d0 m0,
            py_getitem msg "default" = Ok (JObj d0) /\
            a = JObj (_sort_dict d0) /\
            mappings_sorted a = true /\
            py_getitem (JObj d0) "metadata" = Ok m0 /\
            py_getitem m0 "rule_name" = Ok rn
    end.
Proof.
  intros msg region function_name config w.
  pose proof (run_events msg region function_name config w) as H.
  destruct (run _ _ _ _ _ _ _) as [[g t] w'].
  intros s d rn a o Hin.
  destruct (H _ Hin eq_refl)
    as [rn' [a' [toks [token [s' [d' [o' [Hp [_ [_ [[= -> -> -> -> ->] _]]]]]]]]]]].
  destruct Hp as [d0 [m0 [m [outputs [l [H1 [H2 [H3 [-> _]]]]]]]]].
  exists d0, m0. repeat (split; [assumption || reflexivity || idtac|]); auto.
  apply _sort_dict_mappings_sorted.
Qed.

Lemma status_tokens_incl t :
  incl (map snd (flat_map status_of (attempts t))) (attempt_tokens t).
Proof.
  induction t as [|ev t IH]; simpl; [apply incl_refl|].
  destruct ev as [r | s d rn a [sent | e]]; simpl; [exact IH | |].
  - apply incl_cons; [now left | now apply incl_tl].
  - destruct (is_Exception e); simpl.
    + apply incl_cons; [now left | now apply incl_tl].
    + now apply incl_tl.
Qed.

Lemma attempt_tokens_in token t :
  In token (attempt_tokens t) ->
  exists s d rn a o, In (Dispatch s d rn a o) t /\ token = token_of s d.
Proof.
  induction t as [|ev t IH]; simpl; [intros []|].
  destruct ev as [r | s d rn a o]; simpl.
  - intro H. destruct (IH H) as [s [d [rn [a [o [Hin E]]]]]]. eauto 10.
  - intros [<- | H]; [eauto 10|].
    destruct (IH H) as [s' [d' [rn' [a' [o' [Hin E]]]]]]. eauto 10.
Qed.

(** X7.  [run] attempts and reports declared destinations only: every token
    it dispatches for, and every token of a status value it yields, is a
    string among the elements of [metadata.outputs] of the sorted alert. *)
Theorem run_tokens_declared :
  (forall l x, In x (set_iter l) -> In x l) ->
  forall msg region function_name config (w : World),
    match run get_output_dispatcher set_iter msg region function_name config w with
    | (g, t, _) =>
        forall token,
          In token (attempt_tokens t) \/ In token (map snd (yielded g)) ->
          exists alert m outputs l,
            py_getitem msg "default" = Ok alert /\
            py_getitem (canon_value alert) "metadata" = Ok m /\
            py_getitem m "outputs" = Ok outputs /\
            py_iter outputs = Ok l /\
            In (JStr token) l
    end.
Proof.
  intros Hset msg region function_name config w.
  pose proof (run_events msg region function_name config w) as H.
  pose proof (run_status get_output_dispatcher set_iter msg region function_name config w)
    as Hst.
  destruct (run _ _ _ _ _ _ _) as [[g t] w'].
  intros token Htok.
  assert (Hin : In token (attempt_tokens t)).
  { destruct Htok as [Htok | Htok]; [exact Htok|].
    rewrite Hst in Htok. now apply status_tokens_incl. }
  apply attempt_tokens_in in Hin as [s [d [rn [a [o [Hin ->]]]]]].
  destruct (H _ Hin eq_refl)
    as [rn' [a' [toks [tok [s' [d' [o' [Hp [Hintok [Hsplit [[= -> -> -> -> ->] _]]]]]]]]]]].
  destruct Hp as [d0 [m0 [m [outputs [l [H1 [_ [_ [-> [H4 [H5 [H6 ->]]]]]]]]]]]].
  exists (JObj d0), m, outputs, l. repeat (split; [assumption|]).
  rewrite <- (split_two _ _ _ Hsplit). now apply Hset.
Qed.

(** ** The handler *)

(** A record whose turn of the loop changes neither the status values nor
    the world, and dispatches nothing, can be left out of the batch. *)
Lemma handle_records_inert config region function_name record t0 :
  attempts t0 = [] ->
  (forall st (w : World),
      handle_record json_loads get_output_dispatcher set_iter config region function_name
        st record w = (Ok st, t0, w)) ->
  forall before after st w,
    match handle_records json_loads get_output_dispatcher set_iter config region
            function_name (before ++ record :: after) st w,
          handle_records json_loads get_output_dispatcher set_iter config region
            function_name (before ++ after) st w
    with
    | (r, t, w1), (r', t', w1') => r = r' /\ w1 = w1' /\ attempts t = attempts t'
    end.
Proof.
  intros Ht0 Hrec. induction before as [|x before IH]; intros after st w; simpl; unfold bind.
  - rewrite Hrec.
    destruct (handle_records _ _ _ _ _ _ after st w) as [[r t] w'].
    rewrite attempts_app, Ht0. auto.
  - destruct (handle_record _ _ _ _ _ _ st x w) as [[[st' | e] t] w']; [|auto].
    specialize (IH after st' w').
    destruct (handle_records _ _ _ _ _ _ (before ++ record :: after) st' w') as [[r1 t1] w1].
    destruct (handle_records _ _ _ _ _ _ (before ++ after) st' w') as [[r2 t2] w2].
    destruct IH as [-> [-> Ht]]. rewrite !attempts_app, Ht. auto.
Qed.

(** X8.  A record whose message is not JSON is logged and skipped: its turn
    of the loop leaves the status values and the world as they were, and the
    batch gives the results, the dispatch attempts and the world it gives
    without the record. *)
Theorem undecodable_message_skipped :
  forall record sns text,
    py_get record "Sns" JNull = Ok sns ->
    py_truthy sns = true ->
    py_getitem sns "Message" = Ok (JStr text) ->
    json_loads text = Raise ValueError ->
    forall config region function_name,
      (forall st (w : World),
          handle_record json_loads get_output_dispatcher set_iter config region
            function_name st record w = (Ok st, [Log Error_decoding_message], w)) /\
      (forall before after st (w : World),
          match handle_records json_loads get_output_dispatcher set_iter config region
                  function_name (before ++ record :: after) st w,
                handle_records json_loads get_output_dispatcher set_iter config region
                  function_name (before ++ after) st w
          with
          | (r, t, w1), (r', t', w1') => r = r' /\ w1 = w1' /\ attempts t = attempts t'
          end).
Proof.
  intros record sns text Hsns Htruthy Hmsg Hloads config region function_name.
  assert (Hrec : forall st (w : World),
    handle_record json_loads get_output_dispatcher set_iter config region
      function_name st record w = (Ok st, [Log Error_decoding_message], w)).
  { intros st w. unfold handle_record. monad_simpl.
    rewrite Hsns. simpl. rewrite Htruthy. simpl. rewrite Hmsg. simpl.
    rewrite Hloads. reflexivity. }
  split; [exact Hrec|].
  apply handle_records_inert with (t0 := [Log Error_decoding_message]); auto.
Qed.

(** X9.  A message without a [default] key is skipped, whatever else it
    holds: silently when it has an [AlarmName] key, with an error record
    when it has not.  The batch gives the results, the dispatch attempts and
    the world it gives without the record. *)
Theorem message_without_default_skipped :
  forall record sns text msg has_alarm,
    py_get record "Sns" JNull = Ok sns ->
    py_truthy sns = true ->
    py_getitem sns "Message" = Ok (JStr text) ->
    json_loads text = Ok msg ->
    py_contains "default" msg = Ok false ->
    py_contains "AlarmName" msg = Ok has_alarm ->
    forall config region function_name,
      (forall st (w : World),
          handle_record json_loads get_output_dispatcher set_iter config region
            function_name st record w
          = (Ok st, if has_alarm then [] else [Log (Error_malformed_sns msg)], w)) /\
      (forall before after st (w : World),
          match handle_records json_loads get_output_dispatcher set_iter config region
                  function_name (before ++ record :: after) st w,
                handle_records json_loads get_output_dispatcher set_iter config region
                  function_name (before ++ after) st w
          with
          | (r, t, w1), (r', t', w1') => r = r' /\ w1 = w1' /\ attempts t = attempts t'
          end).
Proof.
  intros record sns text msg has_alarm Hsns Htruthy Hmsg Hloads Hdef Halarm
    config region function_name.
  assert (Hrec : forall st (w : World),
    handle_record json_loads get_output_dispatcher set_iter config region
      function_name st record w
    = (Ok st, if has_alarm then [] else [Log (Error_malformed_sns msg)], w)).
  { intros st w. unfold handle_record. monad_simpl.
    rewrite Hsns. simpl. rewrite Htruthy. simpl. rewrite Hmsg. simpl.
    rewrite Hloads. simpl. rewrite Hdef. simpl. rewrite Halarm.
    destruct has_alarm; reflexivity. }
  split; [exact Hrec|].
  apply handle_records_inert
    with (t0 := if has_alarm then [] else [Log (Error_malformed_sns msg)]); auto.
  destruct has_alarm; reflexivity.
Qed.

(** X10.  An event without a [Records] key is an empty batch: with a usable
    configuration the handler returns the empty list, having logged the
    count alone and touched nothing. *)
Theorem empty_batch_returns_empty_list :
  forall ev context text config region (w : World),
    lookup "Records" ev = None \/ lookup "Records" ev = Some (JArr []) ->
    open_file conf_outputs = Some text ->
    json_loads text = Ok config ->
    py_truthy config = true ->
    nth_error (split colon (invoked_function_arn context)) 3 = Some region ->
    handler json_loads open_file get_output_dispatcher set_iter (JObj ev) context w
    = (Ok (Some []), [Log (Info_running 0)], w).
Proof.
  intros ev context text config region w Hrecs Hopen Hloads Htruthy Harn.
  unfold handler, _load_output_config. rewrite Harn. monad_simpl.
  destruct Hrecs as [-> | ->]; simpl; rewrite Hopen, Hloads; simpl;
    rewrite Htruthy; reflexivity.
Qed.

(** X11.  The region is the fourth colon-separated field of the invoked
    function's ARN: with fewer than four fields the handler raises
    [IndexError] once the configuration is loaded, before it looks at a
    record. *)
Theorem short_arn_raises :
  forall event context recs n text config (w : World),
    py_get event "Records" (JArr []) = Ok recs ->
    py_len recs = Ok n ->
    open_file conf_outputs = Some text ->
    json_loads text = Ok config ->
    py_truthy config = true ->
    List.length (split colon (invoked_function_arn context)) < 4 ->
    handler json_loads open_file get_output_dispatcher set_iter event context w
    = (Raise IndexError, [Log (Info_running n)], w).
Proof.
  intros event context recs n text config w Hrecs Hlen Hopen Hloads Htruthy Harn.
  assert (Hnone : nth_error (split colon (invoked_function_arn context)) 3 = None).
  { apply nth_error_None. lia. }
  unfold handler, _load_output_config. rewrite Hnone. monad_simpl.
  rewrite Hrecs. simpl. rewrite Hlen. simpl. rewrite Hopen, Hloads. simpl.
  rewrite Htruthy. reflexivity.
Qed.

Lemma handle_record_acc config region function_name st record (w : World) :
  match handle_record json_loads get_output_dispatcher set_iter config region function_name
          [] record w with
  | (Ok ys, t, w') =>
      handle_record json_loads get_output_dispatcher set_iter config region function_name
        st record w = (Ok (st ++ ys), t, w')
  | (Raise e, t, w') =>
      handle_record json_loads get_output_dispatcher set_iter config region function_name
        st record w = (Raise e, t, w')
  end.
Proof.
  unfold handle_record, extend. monad_simpl.
  destruct (py_get record "Sns" JNull) as [sns|]; simpl; [|reflexivity].
  destruct (py_truthy sns); simpl; [|now rewrite app_nil_r].
  destruct (py_getitem sns "Message") as [m|]; simpl; [|reflexivity].
  destruct m; simpl; try reflexivity.
  destruct (json_loads s) as [msg|err]; simpl;
    [|destruct (is_ValueError err); simpl; [now rewrite app_nil_r | reflexivity]].
  destruct (py_contains "default" msg) as [[|]|]; simpl; [| |reflexivity].
  - destruct (run _ _ _ _ _ _ _) as [[g t] w'].
    destruct (raised g); reflexivity.
  - destruct (py_contains "AlarmName" msg) as [[|]|]; simpl;
      try reflexivity; now rewrite app_nil_r.
Qed.

Lemma handle_records_acc config region function_name records : forall st (w : World),
  match handle_records json_loads get_output_dispatcher set_iter config region function_name
          records [] w with
  | (Ok ys, t, w') =>
      handle_records json_loads get_output_dispatcher set_iter config region function_name
        records st w = (Ok (st ++ ys), t, w')
  | (Raise e, t, w') =>
      handle_records json_loads get_output_dispatcher set_iter config region function_name
        records st w = (Raise e, t, w')
  end.
Proof.
  induction records as [|record rest IH]; intros st w; simpl.
  - unfold ret. now rewrite app_nil_r.
  - unfold bind.
    pose proof (handle_record_acc config region function_name st record w) as Hr.
    destruct (handle_record _ _ _ _ _ _ [] record w) as [[[ys | e] t] w1];
      rewrite Hr; [|reflexivity].
    pose proof (IH ys w1) as H1. pose proof (IH (st ++ ys) w1) as H2.
    destruct (handle_records _ _ _ _ _ _ rest [] w1) as [[[zs | e] t'] w2];
      rewrite H1, H2; [|reflexivity].
    now rewrite app_assoc.
Qed.

Lemma handle_records_app config region function_name records1 records2 :
  forall st (w : World),
    handle_records json_loads get_output_dispatcher set_iter config region function_name
      (records1 ++ records2) st w
    = bind (handle_records json_loads get_output_dispatcher set_iter config region
              function_name records1 st)
        (fun st' => handle_records json_loads get_output_dispatcher set_iter config region
                      function_name records2 st') w.
Proof.
  induction records1 as [|record rest IH]; intros st w; simpl; unfold bind.
  - unfold ret. destruct (handle_records _ _ _ _ _ _ records2 st w) as [[r t] w'].
    reflexivity.
  - destruct (handle_record _ _ _ _ _ _ st record w) as [[[st' | e] t] w1]; [|reflexivity].
    rewrite IH. unfold bind.
    destruct (handle_records _ _ _ _ _ _ rest st' w1) as [[[st'' | e] t'] w2];
      [|reflexivity].
    destruct (handle_records _ _ _ _ _ _ records2 st'' w2) as [[r t''] w3].
    now rewrite app_assoc.
Qed.

(** X12.  The status values of a batch are those of its records, in order:
    the loop over two batches, one after the other, returns the values of
    the first followed by the values of the second, computed from the world
    the first left; an exception in either is the exception of the whole,
    and the values seen before it are lost. *)
Theorem batch_results_concatenate :
  forall config region function_name records1 records2 (w : World),
    handle_records json_loads get_output_dispatcher set_iter config region function_name
      (records1 ++ records2) [] w
    = match handle_records json_loads get_output_dispatcher set_iter config region
              function_name records1 [] w with
      | (Ok ys1, t1, w1) =>
          match handle_records json_loads get_output_dispatcher set_iter config region
                  function_name records2 [] w1 with
          | (Ok ys2, t2, w2) => (Ok (ys1 ++ ys2), t1 ++ t2, w2)
          | (Raise e, t2, w2) => (Raise e, t1 ++ t2, w2)
          end
      | (Raise e, t1, w1) => (Raise e, t1, w1)
      end.
Proof.
  intros config region function_name records1 records2 w.
  rewrite handle_records_app. unfold bind.
  destruct (handle_records _ _ _ _ _ _ records1 [] w) as [[[ys1 | e] t1] w1];
    [|reflexivity].
  pose proof (handle_records_acc config region function_name records2 ys1 w1) as H.
  destruct (handle_records _ _ _ _ _ _ records2 [] w1) as [[[ys2 | e] t2] w2];
    rewrite H; reflexivity.
Qed.

Lemma existsb_lookup k (d : dict) :
  existsb (fun kv => (fst kv =? k)%string) d = true -> exists v, lookup k d = Some v.
Proof.
  induction d as [|[k' v'] d IH]; simpl; [discriminate|].
  destruct (k' =? k)%string; simpl; eauto.
Qed.

Lemma lookup_existsb k (d : dict) v :
  lookup k d = Some v -> existsb (fun kv => (fst kv =? k)%string) d = true.
Proof.
  induction d as [|[k' v'] d IH]; simpl; [discriminate|].
  destruct (k' =? k)%string; simpl; auto.
Qed.

Lemma lookup_not_existsb k (d : dict) :
  lookup k d = None -> existsb (fun kv => (fst kv =? k)%string) d = false.
Proof.
  induction d as [|[k' v'] d IH]; simpl; [reflexivity|].
  destruct (k' =? k)%string; simpl; [discriminate | auto].
Qed.

Lemma searchable_contains x v : searchable v = true -> exists b, py_contains x v = Ok b.
Proof. destruct v; simpl; try discriminate; eauto. Qed.

Lemma run_output_returns rule_name alert region function_name config token (w : World) :
  usable_config config = true ->
  raises_exceptions_only get_output_dispatcher ->
  exists y t w',
    run_output get_output_dispatcher rule_name alert region function_name config
      (JStr token) w = (Ok y, t, w').
Proof.
  intros Hcfg Hdisp. unfold run_output.
  destruct (split colon token) as [|service [|descriptor [|x l]]];
    try (monad_simpl; eauto).
  destruct config as [| | | | | |c]; try discriminate. simpl in Hcfg.
  monad_simpl.
  destruct (existsb (fun kv => (fst kv =? service)%string) c) eqn:Hknown;
    simpl; eauto.
  destruct (existsb_lookup _ _ Hknown) as [entry Hentry]. rewrite Hentry. simpl.
  assert (Hs : searchable entry = true).
  { rewrite forallb_forall in Hcfg. apply (Hcfg (service, entry)). now apply lookup_in. }
  destruct (searchable_contains descriptor entry Hs) as [b ->]. simpl.
  destruct b; simpl; eauto.
  destruct (get_output_dispatcher service region function_name (JObj c)) as [d|] eqn:Hd;
    simpl; eauto.
  destruct (d descriptor rule_name alert w) as [[sent | e] w1] eqn:Hcall; simpl; eauto.
  rewrite (Hdisp _ _ _ _ _ Hd _ _ _ _ _ _ Hcall). simpl. eauto.
Qed.

Lemma run_loop_returns body outputs :
  (forall output, In output outputs -> forall w : World,
      exists y t w', body output w = (Ok y, t, w')) ->
  forall w, exists ys t w',
    run_loop body outputs w = ({| yielded := ys; raised := None |}, t, w').
Proof.
  induction outputs as [|output rest IH]; intros Hbody w; simpl; eauto.
  destruct (Hbody output (or_introl eq_refl) w) as [y [t [w1 ->]]].
  destruct (IH (fun o Ho => Hbody o (or_intror Ho)) w1) as [ys [t' [w2 ->]]].
  simpl. eauto.
Qed.

(** ** The loop over the tokens *)





Lemma is_string_hashable l : forallb is_string l = true -> forallb hashable l = true.
Proof.
  intro H. apply forallb_forall. intros x Hx. rewrite forallb_forall in H.
  specialize (H x Hx). now destruct x.
Qed.

Lemma run_returns items alert region function_name config (w : World) :
  (forall l x, In x (set_iter l) -> In x l) ->
  raises_exceptions_only get_output_dispatcher ->
  usable_config config = true ->
  lookup "default" items = Some alert ->
  routable_alert alert ->
  exists ys t w',
    run get_output_dispatcher set_iter (JObj items) region function_name config w
    = ({| yielded := ys; raised := None |}, t, w').
Proof.
  intros Hset Hdisp Hcfg Hdef [Hwf [d [m [rn [outputs [-> [Hm [Hrn [Hout Hstr]]]]]]]]].
  assert (Hwfm : wf (JObj m)) by (eapply wf_in; [exact Hwf | eapply lookup_in; exact Hm]).
  unfold run, run_prelude. monad_simpl. rewrite Hdef. simpl. rewrite Hm. simpl.
  rewrite Hrn. simpl.
  rewrite (lookup_sort_dict "metadata" d) by apply Hwf. rewrite Hm. simpl.
  rewrite (lookup_sort_dict "outputs" m) by apply Hwfm. rewrite Hout. simpl.
  unfold py_set. simpl. rewrite (is_string_hashable _ Hstr). simpl.
  destruct (run_loop_returns
              (run_output get_output_dispatcher rn (JObj (_sort_dict d)) region
                 function_name config)
              (set_iter outputs)) with (w := w) as [ys [t [w' Hl]]].
  - intros output Hin w0. apply Hset in Hin.
    rewrite forallb_forall in Hstr. specialize (Hstr _ Hin).
    destruct output; try discriminate. now apply run_output_returns.
  - rewrite Hl. eauto.
Qed.

Lemma handle_record_returns config region function_name st record (w : World) :
  raises_value_errors_only json_loads ->
  (forall l x, In x (set_iter l) -> In x l) ->
  raises_exceptions_only get_output_dispatcher ->
  usable_config config = true ->
  well_formed_record json_loads record ->
  exists st' t w',
    handle_record json_loads get_output_dispatcher set_iter config region function_name
      st record w = (Ok st', t, w').
Proof.
  intros Hval Hset Hdisp Hcfg [r [-> Hsns]].
  destruct (lookup "Sns" r) as [sns|] eqn:Hl.
  2: { unfold handle_record. monad_simpl. rewrite Hl. simpl. eauto. }
  destruct Hsns as [Hfalsy | [s [text [Heq [Hmsg Hloads]]]]].
  { unfold handle_record. monad_simpl. rewrite Hl. simpl. rewrite Hfalsy. simpl. eauto. }
  assert (Ht : py_truthy sns = true).
  { subst sns. destruct s; [discriminate Hmsg | reflexivity]. }
  assert (Hg : py_getitem sns "Message" = Ok (JStr text)).
  { subst sns. simpl. now rewrite Hmsg. }
  clear Heq Hmsg.
  unfold handle_record, extend. monad_simpl. rewrite Hl. simpl. rewrite Ht. simpl.
  rewrite Hg. simpl.
  destruct (json_loads text) as [msg|err] eqn:El; simpl;
    [|rewrite (Hval _ _ El); simpl; eauto].
  destruct Hloads as [items [-> Hdef]]. simpl.
  destruct (lookup "default" items) as [alert|] eqn:E.
  - rewrite (lookup_existsb _ _ _ E). simpl.
    destruct (run_returns items alert region function_name config w Hset Hdisp Hcfg E Hdef)
      as [ys [t [w' ->]]].
    simpl. eauto.
  - rewrite (lookup_not_existsb _ _ E). simpl.
    destruct (existsb _ items); simpl; eauto.
Qed.

Lemma handle_records_returns config region function_name records :
  raises_value_errors_only json_loads ->
  (forall l x, In x (set_iter l) -> In x l) ->
  raises_exceptions_only get_output_dispatcher ->
  usable_config config = true ->
  Forall (well_formed_record json_loads) records ->
  forall st (w : World), exists st' t w',
    handle_records json_loads get_output_dispatcher set_iter config region function_name
      records st w = (Ok st', t, w').
Proof.
  intros Hval Hset Hdisp Hcfg Hall. induction Hall as [|record rest Hrec _ IH];
    intros st w; simpl; [unfold ret; eauto|].
  unfold bind.
  destruct (handle_record_returns config region function_name st record w
              Hval Hset Hdisp Hcfg Hrec) as [st' [t [w' ->]]].
  destruct (IH st' w') as [st'' [t' [w'' ->]]]. eauto.
Qed.

(** X13.  On a batch of the documented shape the handler raises nothing: if
    [json.loads] raises nothing but [ValueError], the configuration file
    opens, every record is well formed, the configuration (when it parses to
    something truthy) maps services to containers, the ARN has its four
    fields and the dispatchers raise nothing but [Exception]s, the handler
    returns, whatever the dispatchers do. *)
Theorem handler_returns :
  raises_value_errors_only json_loads ->
  (forall l x, In x (set_iter l) -> In x l) ->
  raises_exceptions_only get_output_dispatcher ->
  forall ev context text (w : World),
    (lookup "Records" ev = None \/
     exists records, lookup "Records" ev = Some (JArr records) /\
                     Forall (well_formed_record json_loads) records) ->
    open_file conf_outputs = Some text ->
    match json_loads text with
    | Ok config => py_truthy config = false \/ usable_config config = true
    | Raise _ => True
    end ->
    4 <= List.length (split colon (invoked_function_arn context)) ->
    exists res t w',
      handler json_loads open_file get_output_dispatcher set_iter (JObj ev) context w
      = (Ok res, t, w').
Proof.
  intros Hval Hset Hdisp ev context text w Hrecs Hopen Hcfg Harn.
  assert (Hregion : exists region,
             nth_error (split colon (invoked_function_arn context)) 3 = Some region).
  { destruct (nth_error (split colon (invoked_function_arn context)) 3) eqn:E; eauto.
    apply nth_error_None in E. lia. }
  destruct Hregion as [region Hregion].
  assert (Hrecords : exists records,
             py_get (JObj ev) "Records" (JArr []) = Ok (JArr records) /\
             Forall (well_formed_record json_loads) records).
  { simpl. destruct Hrecs as [-> | [records [-> Hall]]]; eauto. }
  destruct Hrecords as [records [Hget Hall]].
  unfold handler, _load_output_config. rewrite Hregion, Hget. monad_simpl.
  rewrite Hopen. destruct (json_loads text) as [config|err] eqn:El; simpl;
    [|rewrite (Hval _ _ El); simpl; eauto].
  destruct (py_truthy config) eqn:Htruthy; simpl; [|eauto].
  destruct Hcfg as [Hcfg | Hcfg]; [discriminate|].
  destruct (handle_records_returns config region (function_name context) records
              Hval Hset Hdisp Hcfg Hall [] w) as [st [t [w' ->]]].
  eauto.
Qed.

(** X14.  When [metadata.outputs] is no dict and [set(outputs)] raises (the
    value cannot be iterated, or holds a list or a dict), [run] raises the
    same before its loop: nothing is yielded and no dispatcher is called. *)
Theorem unhashable_outputs_raise :
  forall items d m rule_name outputs e,
    lookup "default" items = Some (JObj d) ->
    wf (JObj d) ->
    lookup "metadata" d = Some (JObj m) ->
    lookup "rule_name" m = Some rule_name ->
    lookup "outputs" m = Some outputs ->
    is_dict outputs = false ->
    py_set set_iter outputs = Raise e ->
    forall region function_name config (w : World),
      run get_output_dispatcher set_iter (JObj items) region function_name config w
      = ({| yielded := []; raised := Some e |}, [Log (Debug_message (JObj items))], w).
Proof.
  intros items d m rule_name outputs e Hdef Hwf Hm Hrn Hout Hnd Hset
    region function_name config w.
  assert (Hwfm : wf (JObj m)) by (eapply wf_in; [exact Hwf | eapply lookup_in; exact Hm]).
  assert (Hcanon : canon_value outputs = outputs) by (destruct outputs; auto; discriminate).
  unfold run, run_prelude. monad_simpl. rewrite Hdef. simpl. rewrite Hm. simpl.
  rewrite Hrn. simpl.
  rewrite (lookup_sort_dict "metadata" d) by apply Hwf. rewrite Hm. simpl.
  rewrite (lookup_sort_dict "outputs" m) by apply Hwfm. rewrite Hout. simpl.
  rewrite Hcanon, Hset. reflexivity.
Qed.

(** X15.  The handler returns [None] for one reason only: the configuration
    file opened but did not parse, or parsed to a falsy value.  It has then
    called no dispatcher and left the world as it was. *)
Theorem none_means_unusable_config :
  forall event context t (w w' : World),
    handler json_loads open_file get_output_dispatcher set_iter event context w
    = (Ok None, t, w') ->
    (exists text,
        open_file conf_outputs = Some text /\
        (json_loads text = Raise ValueError \/
         exists config, json_loads text = Ok config /\ py_truthy config = false)) /\
    attempts t = [] /\ w' = w.
Proof.
  intros event context t w w'. unfold handler, _load_output_config.
  remember (nth_error (split colon (invoked_function_arn context)) 3) as found.
  monad_simpl.
  destruct (py_get event "Records" (JArr [])) as [recs|]; simpl; [|discriminate].
  destruct (py_len recs) as [n|]; simpl; [|discriminate].
  destruct (open_file conf_outputs) as [text|]; simpl; [|discriminate].
  destruct (json_loads text) as [config|err] eqn:Hloads; simpl.
  - destruct (py_truthy config) eqn:Htruthy; simpl.
    + destruct found as [region|]; simpl; [|discriminate].
      destruct (py_iter recs) as [records|]; simpl; [|discriminate].
      destruct (handle_records _ _ _ _ _ _ records [] w) as [[[st | e] t0] w0];
        simpl; discriminate.
    + intros [= <- <-]. split; [|auto]. exists text. split; [reflexivity|]. eauto.
  - destruct err; simpl; try discriminate.
    intros [= <- <-]. split; [|auto]. exists text. auto.
Qed.

End ProcessorInvariants.

(** ** The further properties on concrete inputs *)

Lemma first_seen_incl l : forall seen x, In x (first_seen seen l) -> In x l.
Proof.
  induction l as [|v l IH]; intros seen x; simpl; [auto|].
  destruct v; simpl; try (intros [<- | H]; [now left | right; eauto]).
  destruct (existsb (String.eqb s) seen); simpl.
  - intro H. right. eauto.
  - intros [<- | H]; [now left | right; eauto].
Qed.

Lemma in_order_incl l x : In x (in_order l) -> In x l.
Proof. apply first_seen_incl. Qed.

Lemma sample_registry_raises_exceptions_only : raises_exceptions_only sample_registry.
Proof.
  intros service region function_name config d Hd descriptor rule_name alert w e w' Hcall.
  unfold sample_registry in Hd.
  repeat match type of Hd with
         | (if ?c then _ else _) = _ => destruct c
         end;
    try discriminate Hd; injection Hd as <-;
    unfold delivering, failing in Hcall;
    solve [discriminate Hcall | injection Hcall as <- _; reflexivity].
Qed.

Lemma run_dispatches_configured_only_witness :
  In (Dispatch "slack" "ok" (JStr "r1")
        (canon_value (sample_alert [JStr "slack:ok"; JStr "phantom:x"])) (Ok true))
     (snd (fst (run sample_registry in_order
                  (sample_message [JStr "slack:ok"; JStr "phantom:x"])
                  "us-east-1" "alerts" sample_config []))) /\
  configured sample_registry "us-east-1" "alerts" sample_config "slack" "ok".
Proof.
  assert (Hin : In (Dispatch "slack" "ok" (JStr "r1")
                      (canon_value (sample_alert [JStr "slack:ok"; JStr "phantom:x"])) (Ok true))
                   (snd (fst (run sample_registry in_order
                                (sample_message [JStr "slack:ok"; JStr "phantom:x"])
                                "us-east-1" "alerts" sample_config [])))).
  { vm_compute. auto. }
  split; [exact Hin|].
  pose proof (run_dispatches_configured_only sample_registry in_order
                (sample_message [JStr "slack:ok"; JStr "phantom:x"])
                "us-east-1" "alerts" sample_config []) as H.
  destruct (run _ _ _ _ _ _ _) as [[g t] w]. simpl in Hin.
  exact (H _ _ _ _ _ Hin).
Defined.

Lemma run_dispatches_canonical_alert_witness :
  In (Dispatch "slack" "ok" (JStr "r1")
        (canon_value (sample_alert [JStr "slack:ok"])) (Ok true))
     (snd (fst (run sample_registry in_order (sample_message [JStr "slack:ok"])
                  "us-east-1" "alerts" sample_config []))) /\
  exists d0 m0,
    py_getitem (sample_message [JStr "slack:ok"]) "default" = Ok (JObj d0) /\
    canon_value (sample_alert [JStr "slack:ok"]) = JObj (_sort_dict d0) /\
    mappings_sorted (canon_value (sample_alert [JStr "slack:ok"])) = true /\
    py_getitem (JObj d0) "metadata" = Ok m0 /\
    py_getitem m0 "rule_name" = Ok (JStr "r1").
Proof.
  assert (Hin : In (Dispatch "slack" "ok" (JStr "r1")
                      (canon_value (sample_alert [JStr "slack:ok"])) (Ok true))
                   (snd (fst (run sample_registry in_order (sample_message [JStr "slack:ok"])
                                "us-east-1" "alerts" sample_config [])))).
  { vm_compute. auto. }
  split; [exact Hin|].
  pose proof (run_dispatches_canonical_alert sample_registry in_order
                (sample_message [JStr "slack:ok"])
                "us-east-1" "alerts" sample_config []) as H.
  destruct (run _ _ _ _ _ _ _) as [[g t] w]. simpl in Hin.
  exact (H _ _ _ _ _ Hin).
Defined.

Lemma run_tokens_declared_witness :
  (forall l x, In x (in_order l) -> In x l) /\
  In "slack:ok"
     (map snd (yielded (fst (fst (run sample_registry in_order
                                    (sample_message [JStr "bogus"; JStr "slack:ok"])
                                    "us-east-1" "alerts" sample_config []))))) /\
  exists alert m outputs l,
    py_getitem (sample_message [JStr "bogus"; JStr "slack:ok"]) "default" = Ok alert /\
    py_getitem (canon_value alert) "metadata" = Ok m /\
    py_getitem m "outputs" = Ok outputs /\
    py_iter outputs = Ok l /\
    In (JStr "slack:ok") l.
Proof.
  split; [exact in_order_incl|].
  assert (Hin : In "slack:ok"
     (map snd (yielded (fst (fst (run sample_registry in_order
                                    (sample_message [JStr "bogus"; JStr "slack:ok"])
                                    "us-east-1" "alerts" sample_config [])))))).
  { vm_compute. auto. }
  split; [exact Hin|].
  pose proof (run_tokens_declared sample_registry in_order in_order_incl
                (sample_message [JStr "bogus"; JStr "slack:ok"])
                "us-east-1" "alerts" sample_config []) as H.
  destruct (run _ _ _ _ _ _ _) as [[g t] w]. simpl in Hin.
  exact (H "slack:ok" (or_intror Hin)).
Defined.

Lemma undecodable_message_skipped_witness :
  sample_loads "garbage" = Raise ValueError /\
  match handle_records sample_loads sample_registry in_order sample_config
          "us-east-1" "alerts" [sns_record "alert"; sns_record "garbage"; sns_record "page"]
          [] [],
        handle_records sample_loads sample_registry in_order sample_config
          "us-east-1" "alerts" [sns_record "alert"; sns_record "page"] [] []
  with
  | (r, t, w1), (r', t', w1') => r = r' /\ w1 = w1' /\ attempts t = attempts t'
  end.
Proof.
  split; [reflexivity|].
  exact (proj2 (undecodable_message_skipped sample_loads sample_registry in_order
                  (sns_record "garbage") (JObj [("Message", JStr "garbage")]) "garbage"
                  eq_refl eq_refl eq_refl eq_refl sample_config "us-east-1" "alerts")
           [sns_record "alert"] [sns_record "page"] [] []).
Defined.

Lemma message_without_default_skipped_witness :
  handle_record sample_loads_more sample_registry in_order sample_config
    "us-east-1" "alerts" [] (sns_record "alarm") []
  = (Ok [], [], []) /\
  handle_record sample_loads_more sample_registry in_order sample_config
    "us-east-1" "alerts" [] (sns_record "stray") []
  = (Ok [], [Log (Error_malformed_sns (JObj [("Subject", JStr "hello")]))], []).
Proof.
  split.
  - exact (proj1 (message_without_default_skipped sample_loads_more sample_registry in_order
                    (sns_record "alarm") (JObj [("Message", JStr "alarm")]) "alarm"
                    (JObj [("AlarmName", JStr "errors-high")]) true
                    eq_refl eq_refl eq_refl eq_refl eq_refl eq_refl
                    sample_config "us-east-1" "alerts") [] []).
  - exact (proj1 (message_without_default_skipped sample_loads_more sample_registry in_order
                    (sns_record "stray") (JObj [("Message", JStr "stray")]) "stray"
                    (JObj [("Subject", JStr "hello")]) false
                    eq_refl eq_refl eq_refl eq_refl eq_refl eq_refl
                    sample_config "us-east-1" "alerts") [] []).
Defined.

Lemma empty_batch_returns_empty_list_witness :
  lookup "Records" [("source", JStr "test")] = None /\
  handler sample_loads (files_with "outputs") sample_registry in_order
    (JObj [("source", JStr "test")]) sample_context []
  = (Ok (Some []), [Log (Info_running 0)], []).
Proof.
  split; [reflexivity|].
  exact (empty_batch_returns_empty_list sample_loads (files_with "outputs") sample_registry
           in_order [("source", JStr "test")] sample_context "outputs" sample_config
           "us-east-1" [] (or_introl eq_refl) eq_refl eq_refl eq_refl eq_refl).
Defined.

Lemma short_arn_raises_witness :
  List.length (split colon (invoked_function_arn short_context)) < 4 /\
  handler sample_loads (files_with "outputs") sample_registry in_order
    (batch [sns_record "alert"]) short_context []
  = (Raise IndexError, [Log (Info_running 1)], []).
Proof.
  assert (H : List.length (split colon (invoked_function_arn short_context)) < 4)
    by (simpl; lia).
  split; [exact H|].
  exact (short_arn_raises sample_loads (files_with "outputs") sample_registry in_order
           (batch [sns_record "alert"]) short_context (JArr [sns_record "alert"]) 1
           "outputs" sample_config [] eq_refl eq_refl eq_refl eq_refl eq_refl H).
Defined.

Lemma sample_loads_raises_value_errors_only : raises_value_errors_only sample_loads.
Proof.
  intros text e H. unfold sample_loads in H.
  repeat match type of H with
         | (if ?c then _ else _) = _ => destruct c
         end;
    try discriminate H. now injection H as <-.
Qed.

Lemma handler_returns_witness :
  raises_value_errors_only sample_loads /\
  Forall (well_formed_record sample_loads)
    [record_without_sns; sns_record "alert"; sns_record "garbage"] /\
  exists res t w',
    handler sample_loads (files_with "outputs") sample_registry in_order
      (batch [record_without_sns; sns_record "alert"; sns_record "garbage"])
      sample_context []
    = (Ok res, t, w').
Proof.
  assert (Hall : Forall (well_formed_record sample_loads)
                   [record_without_sns; sns_record "alert"; sns_record "garbage"]).
  { repeat constructor.
    - exists [("EventSource", JStr "aws:s3")]. split; [reflexivity | exact I].
    - exists [("Sns", JObj [("Message", JStr "alert")])]. split; [reflexivity|].
      right. exists [("Message", JStr "alert")], "alert".
      split; [reflexivity|]. split; [reflexivity|].
      exists [("default", sample_alert [JStr "slack:ok"; JStr "bogus"; JStr "slack:ok"])].
      split; [reflexivity|]. split.
      + simpl. repeat split; repeat constructor; simpl; intuition discriminate.
      + eexists _, _, _, _. repeat split; reflexivity.
    - exists [("Sns", JObj [("Message", JStr "garbage")])]. split; [reflexivity|].
      right. exists [("Message", JStr "garbage")], "garbage".
      split; [reflexivity|]. split; [reflexivity | exact I]. }
  split; [exact sample_loads_raises_value_errors_only|]. split; [exact Hall|].
  apply (handler_returns sample_loads (files_with "outputs") sample_registry in_order
           sample_loads_raises_value_errors_only
           in_order_incl sample_registry_raises_exceptions_only
           [("Records", JArr [record_without_sns; sns_record "alert"; sns_record "garbage"])]
           sample_context "outputs" []).
  - right. eexists. split; [reflexivity | exact Hall].
  - reflexivity.
  - right. reflexivity.
  - simpl. lia.
Defined.

Lemma unhashable_outputs_raise_witness :
  py_set in_order (JArr [JStr "slack:ok"; JArr []]) = Raise TypeError /\
  run sample_registry in_order
    (JObj [("default",
            JObj [("metadata",
                   JObj [("rule_name", JStr "r1");
                         ("outputs", JArr [JStr "slack:ok"; JArr []])])])])
    "us-east-1" "alerts" sample_config []
  = ({| yielded := []; raised := Some TypeError |},
     [Log (Debug_message
             (JObj [("default",
                     JObj [("metadata",
                            JObj [("rule_name", JStr "r1");
                                  ("outputs", JArr [JStr "slack:ok"; JArr []])])])]))],
     []).
Proof.
  split; [reflexivity|].
  apply (unhashable_outputs_raise sample_registry in_order _
           [("metadata", JObj [("rule_name", JStr "r1");
                               ("outputs", JArr [JStr "slack:ok"; JArr []])])]
           [("rule_name", JStr "r1"); ("outputs", JArr [JStr "slack:ok"; JArr []])]
           (JStr "r1") (JArr [JStr "slack:ok"; JArr []]) TypeError);
    try reflexivity.
  simpl. repeat split; repeat constructor; simpl; intuition discriminate.
Defined.

Lemma none_means_unusable_config_witness :
  handler sample_loads (files_with "empty") sample_registry in_order
    (batch [sns_record "alert"]) sample_context []
  = (Ok None, [Log (Info_running 1)], []) /\
  exists text,
    files_with "empty" conf_outputs = Some text /\
    (sample_loads text = Raise ValueError \/
     exists config, sample_loads text = Ok config /\ py_truthy config = false).
Proof.
  split; [reflexivity|].
  exact (proj1 (none_means_unusable_config sample_loads (files_with "empty") sample_registry
                  in_order (batch [sns_record "alert"]) sample_context
                  [Log (Info_running 1)] [] [] eq_refl)).
Defined.


(** What [json.loads] raises that is no [ValueError] is not caught either:
    it leaves the handler, and the records after it are not looked at. *)
Example deep_message_escapes :
  handler sample_loads_more (files_with "outputs") sample_registry in_order
    (batch [sns_record "deep"; sns_record "alert"]) sample_context []
  = (Raise OtherException, [Log (Info_running 2)], []).
Proof. reflexivity. Qed.

(** [len] and iteration go by code points: the two bytes of U+00E9 are one
    character. *)
Example code_points_sample :
  py_len (JStr (String (ascii_of_nat 195) (String (ascii_of_nat 169) "x"))) = Ok 2 /\
  py_iter (JStr (String (ascii_of_nat 195) (String (ascii_of_nat 169) "x")))
  = Ok [JStr (String (ascii_of_nat 195) (String (ascii_of_nat 169) EmptyString)); JStr "x"].
Proof. split; reflexivity. Qed.
